(** * Crust storage-market client: a shallow embedding and its properties

    The repository holds four variants of one TypeScript client for the
    Crust storage market:

    - [src/src/index.ts]: a signing client [Crust] that builds, signs and
      broadcasts in one call, a key-less client [CrustNoSeed] that
      broadcasts externally signed payloads, and the registry helper
      [useCrustNoSeed];
    - [src/unnamed/part_000]: [CrustNoSeed] with payload builders and
      connection control, [Crust] layered on top of it, and [useCrust];
    - [src/unnamed/part_001]: the same with an idle countdown that
      disconnects after [countDownSec] seconds, and [getUseCrust];
    - [src/unnamed/part_002]: a signing client whose [placeStorageOrder]
      first looks the order up on chain.

    The polkadot-js API (ApiPromise, WsProvider, Keyring) is an external
    collaborator.  It is represented by the data the client reads from it
    (decoded calls, status updates, event records, connection flags) and
    by explicit environment fields saying how the chain answers.

    Asynchronous functions are state transformers returning the final
    state of the promise they hand to the caller. *)

From stdpp Require Import gmap strings list.
From Stdlib Require Import ZArith.

Open Scope Z_scope.

(* ================================================================== *)
(** * Part I: definitions                                              *)
(* ================================================================== *)

(** ** JavaScript values, errors and promises *)

Module Js.

(** The run-time values the client inspects.  Numbers only occur as
    integral amounts, so they are integers here. *)
#[warnings="-register-all"] Inductive Value :=
| JUndefined
| JNull
| JBool (b : bool)
| JNum (n : Z)
| JStr (s : string)
| JObj (fields : list (string * Value)).

(** [typeof v] *)
Definition typeof (v : Value) : string :=
  match v with
  | JUndefined => "undefined"
  | JNull => "object"
  | JBool _ => "boolean"
  | JNum _ => "number"
  | JStr _ => "string"
  | JObj _ => "object"
  end.

(** Own-property read on a list of fields: first match wins. *)
Fixpoint field (k : string) (fs : list (string * Value)) : Value :=
  match fs with
  | [] => JUndefined
  | (k', v) :: fs' => if String.eqb k' k then v else field k fs'
  end.

(** [v[k]] for a defined [v]; primitives carry no such property. *)
Definition prop (v : Value) (k : string) : Value :=
  match v with
  | JObj fs => field k fs
  | _ => JUndefined
  end.

(** [v?.k] *)
Definition optProp (v : Value) (k : string) : Value :=
  match v with
  | JUndefined | JNull => JUndefined
  | _ => prop v k
  end.

(** [new Error(message)]; transport failures are errors too. *)
Inductive Error := MkError (message : string).

(** A promise is pending until its first settlement; [resolve] and
    [reject] on a settled promise do nothing. *)
Inductive Promise (A : Type) :=
| Pending
| Fulfilled (a : A)
| Rejected (e : Error).
Arguments Pending {A}.
Arguments Fulfilled {A} a.
Arguments Rejected {A} e.

Definition resolve {A} (a : A) (p : Promise A) : Promise A :=
  match p with
  | Pending => Fulfilled a
  | _ => p
  end.

Definition reject {A} (e : Error) (p : Promise A) : Promise A :=
  match p with
  | Pending => Rejected e
  | _ => p
  end.

Definition settled {A} (p : Promise A) : bool :=
  match p with
  | Pending => false
  | _ => true
  end.

(** [haystack.includes(needle)] *)
Fixpoint includes (needle haystack : string) : bool :=
  if String.prefix needle haystack then true
  else match haystack with
       | EmptyString => false
       | String _ rest => includes needle rest
       end.

End Js.
Export Js.

(** ** Asynchronous functions over a client state

    An [async] function body runs against the state [S] of the client
    and of its environment.  [await] continues with the value of a
    fulfilled promise, propagates a rejection as the rejection of the
    enclosing function, and never continues on a promise that stays
    pending. *)

Definition Async (S A : Type) : Type := S -> Promise A * S.

Definition ret {S A} (a : A) : Async S A := fun s => (Fulfilled a, s).

Definition throw {S A} (e : Error) : Async S A := fun s => (Rejected e, s).

Definition await {S A B} (m : Async S A) (k : A -> Async S B) : Async S B :=
  fun s =>
    match m s with
    | (Fulfilled a, s') => k a s'
    | (Rejected e, s') => (Rejected e, s')
    | (Pending, s') => (Pending, s')
    end.

Notation "'await!' x <- m ;; k" := (await m (fun x => k))
  (at level 10, x name, m at level 99, k at level 200).

(** ** What the client reads from the ledger API *)

Module Ledger.

(** [tx.method]: the decoded call, with its arguments in the
    [toHuman()] form, named as in the chain metadata. *)
Record Call := {
  section : string;
  method : string;
  args : list (string * Value);
}.

(** [tx.method.toHuman()] *)
Definition call_toHuman (c : Call) : Value :=
  JObj [("args", JObj (args c));
        ("method", JStr (method c));
        ("section", JStr (section c))].

(** A submittable extrinsic: the call and who signed it, if anyone. *)
Record Extrinsic := {
  call : Call;
  signature : option string;
}.

(** The numbers the market calls take.  [reportedFileSize] is a [u64]
    and [tips] a [Balance], a [u128]; an [amount] is handed over as a
    JS number and has to be a safe integer.  Outside these ranges the
    library throws instead of building the call. *)
Definition validSize (size : Z) : bool :=
  (0 <=? size) && (size <? 2 ^ 64).

Definition validTips (tips : Z) : bool :=
  (0 <=? tips) && (tips <? 2 ^ 128).

Definition validAmount (amount : Z) : bool :=
  (0 <=? amount) && (amount <=? 2 ^ 53 - 1).

(** [api.tx.market.placeStorageOrder(cid, size, tips, memo)], for a
    size within [validSize] and tips within [validTips]: the call
    built.  The refusal of numbers outside them is not part of the
    embedding. *)
Definition market_placeStorageOrder (cid : string) (size tips : Z)
    (memo : string) : Extrinsic :=
  {| call := {| section := "market";
                method := "placeStorageOrder";
                args := [("cid", JStr cid);
                         ("reportedFileSize", JNum size);
                         ("tips", JNum tips);
                         ("memo", JStr memo)] |};
     signature := None |}.

(** [api.tx.market.addPrepaid(cid, amount)], for an amount within
    [validAmount]: the call built.  The refusal of numbers outside it
    is not part of the embedding. *)
Definition market_addPrepaid (cid : string) (amount : Z) : Extrinsic :=
  {| call := {| section := "market";
                method := "addPrepaid";
                args := [("cid", JStr cid); ("amount", JNum amount)] |};
     signature := None |}.

(** [tx.signAsync(krp)] *)
Definition signAsync (krp : string) (tx : Extrinsic) : Extrinsic :=
  {| call := call tx; signature := Some krp |}.

(** The transaction status enum of the node RPC. *)
Inductive ExtrinsicStatus :=
| Future
| Ready
| Broadcast (peers : list string)
| InBlock (blockHash : string)
| Retracted (blockHash : string)
| FinalityTimeout (blockHash : string)
| Finalized (blockHash : string)
| Usurped (txHash : string)
| Dropped
| Invalid.

Definition status_isInBlock (s : ExtrinsicStatus) : bool :=
  match s with
  | InBlock _ => true
  | _ => false
  end.

(** [status.toHuman()]: a unit variant prints as its name, a variant
    with a payload as a one-field object. *)
Definition status_toHuman (s : ExtrinsicStatus) : Value :=
  match s with
  | Future => JStr "Future"
  | Ready => JStr "Ready"
  | Broadcast peers => JObj [("Broadcast", JObj (map (fun p => (p, JStr p)) peers))]
  | InBlock h => JObj [("InBlock", JStr h)]
  | Retracted h => JObj [("Retracted", JStr h)]
  | FinalityTimeout h => JObj [("FinalityTimeout", JStr h)]
  | Finalized h => JObj [("Finalized", JStr h)]
  | Usurped h => JObj [("Usurped", JStr h)]
  | Dropped => JStr "Dropped"
  | Invalid => JStr "Invalid"
  end.

(** One record of [result.events]: [event.method] and [event.data],
    each datum in its [toHuman()] form. *)
Record EventRecord := {
  ev_section : string;
  ev_method : string;
  ev_data : list Value;
}.

(** The argument of a status callback; [txHash] is already in the
    [toHex()] form. *)
Record SubmittableResult := {
  status : ExtrinsicStatus;
  events : list EventRecord;
  txHash : string;
}.

Definition isInBlock (r : SubmittableResult) : bool :=
  status_isInBlock (status r).

(** What [tx.send(callback)] does: the returned promise rejects and
    the callback is never run, or the subscription is set up and the
    callback runs once per status update, in order. *)
Inductive SendOutcome :=
| SendFails (e : Error)
| Subscribed (updates : list SubmittableResult).

End Ledger.
Export Ledger.

(** ** The transaction submitter: status callbacks *)

Record StoredResource := {
  hash : Value;
  cid : Value;
}.

Module Submit.

(** [data.pop()?.toHuman()]: the last datum, or [undefined] when there
    is none.  [pop] also takes the datum off the record; every status
    update brings its own records, and a record is scanned once before
    the promise settles, so the shortened record is never read. *)
Definition popHuman (data : list Value) : Value :=
  match last data with
  | Some v => v
  | None => JUndefined
  end.

(** One turn of [events.forEach]: the local [cid] and the promise. *)
Definition scanEvent (txHash : string)
    (st : Value * Promise StoredResource) (ev : EventRecord)
    : Value * Promise StoredResource :=
  let cid0 := fst st in
  let p0 := snd st in
  let cid1 :=
    if String.eqb (ev_method ev) "FileSuccess"
    then popHuman (ev_data ev) else cid0 in
  let p1 :=
    if String.eqb (ev_method ev) "ExtrinsicSuccess"
    then resolve {| hash := JStr txHash; cid := cid1 |} p0 else p0 in
  (cid1, p1).

(** The status callback of the place-order paths. *)
Definition onPlaceStorageOrder (r : SubmittableResult)
    (p : Promise StoredResource) : Promise StoredResource :=
  if isInBlock r
  then snd (fold_left (scanEvent (txHash r)) (events r) (JUndefined, p))
  else p.

(** The status callback of the add-prepaid paths, for a known [cid]. *)
Definition onAddPrepaid (cid : Value) (r : SubmittableResult)
    (p : Promise StoredResource) : Promise StoredResource :=
  if isInBlock r
  then resolve {| hash := prop (status_toHuman (status r)) "InBlock";
                  cid := cid |} p
  else p.

(** [tx.send(cb).catch(reject)] seen from the promise under
    construction. *)
Definition deliver (cb : SubmittableResult -> Promise StoredResource
                          -> Promise StoredResource)
    (o : SendOutcome) (p : Promise StoredResource)
    : Promise StoredResource :=
  match o with
  | SendFails e => reject e p
  | Subscribed updates => fold_left (fun q r => cb r q) updates p
  end.

End Submit.
Export Submit.

(** ** Shared data shapes of the four source files *)

Definition mainNet : string := "wss://rpc.crust.network".
Definition testNet : string := "wss://rpc-rocky.crust.network".

(** [CrustOpt.net]; [None] is an omitted option. *)
Inductive Net := main | test.

(** [parameters.net = parameters.net ?? "main"], then the endpoint
    choice of the constructors. *)
Definition endpoint (net : option Net) : string :=
  match default main net with
  | main => mainNet
  | test => testNet
  end.

Record Replica := {
  who : string;
  valid_at : string;
  anchor : string;
  is_reported : bool;
  created_at : option string;
}.

Record OrderStatus := {
  file_size : string;
  spower : string;
  expired_at : string;
  calculated_at : string;
  amount : string;
  prepaid : string;
  reported_replica_count : string;
  remaining_paid_count : string;
  replicas : gmap string Replica;
}.

(** The argument of the place-order operations.  [size] and [tips] may
    be left out where the source marks them optional. *)
Module Entry.
Record t := {
  cid : string;
  type : string;
  size : option Z;
  tips : option Z;
}.
End Entry.

(** The ledger codec, supplied by the API: [tx.toHex()] and
    [api.tx(payload)], which throws on a payload it cannot decode. *)
Class Codec := {
  Payload : Type;
  toHex : Extrinsic -> Payload;
  api_tx : Payload -> Error + Extrinsic;
}.

(** ** The clients without idle countdown
    ([src/src/index.ts] and [src/unnamed/part_000]) *)

Module Plain.

(** The API object behind [#api] and the chain behind it:
    [isReadyOrError] is the promise the API settles once; [chain] says
    how a broadcast is answered; [sent] records every transport send;
    [filesV2] is the market storage read by the status query. *)
Record Node := {
  api_isReadyOrError : Promise unit;
  chain : Extrinsic -> SendOutcome;
  sent : list Extrinsic;
  filesV2 : gmap string OrderStatus;
}.

(** [isReadyOrError = async () => await this.#api.isReadyOrError] *)
Definition isReadyOrError : Async Node unit :=
  fun n => (api_isReadyOrError n, n).

(** [tx.send(cb)]: one transport send, answered by the chain. *)
Definition send (tx : Extrinsic) (n : Node) : SendOutcome * Node :=
  (chain n tx,
   {| api_isReadyOrError := api_isReadyOrError n;
      chain := chain n;
      sent := sent n ++ [tx];
      filesV2 := filesV2 n |}).

(** [new Promise((resolve, reject) => body)]: the executor runs at
    once on a pending promise. *)
Definition newPromise {A}
    (executor : Promise A -> Node -> Promise A * Node) : Async Node A :=
  executor Pending.

(** [tx.send(cb).catch(reject)] inside an executor. *)
Definition sendAndWatch (tx : Extrinsic)
    (cb : SubmittableResult -> Promise StoredResource -> Promise StoredResource)
    (p : Promise StoredResource) (n : Node) : Promise StoredResource * Node :=
  let o := send tx n in
  (deliver cb (fst o) p, snd o).

Section WithCodec.
Context `{Codec}.

(** [CrustNoSeed.getTx] *)
Definition getTx (extrinsic : Payload) : Error + Extrinsic := api_tx extrinsic.

(** [CrustNoSeed.getPlaceStorageOrderRaw] of part_000 *)
Definition getPlaceStorageOrderRaw (entry : Entry.t) : Async Node Payload :=
  await! _ <- isReadyOrError ;;
  let fileCid := Entry.cid entry in
  let fileSize := Entry.size entry in
  let memo := if String.eqb (Entry.type entry) "directory" then "folder" else "" in
  let tx := market_placeStorageOrder fileCid (default 0 fileSize)
              (default 0 (Entry.tips entry)) memo in
  ret (toHex tx).

(** [CrustNoSeed.getAddPrepaidAmountRaw] of part_000 *)
Definition getAddPrepaidAmountRaw (fileCid : string) (amount : Z)
    : Async Node Payload :=
  await! _ <- isReadyOrError ;;
  let tx := market_addPrepaid fileCid amount in
  ret (toHex tx).

(** [CrustNoSeed.placeStorageOrderRaw], the same text in index.ts and
    part_000 *)
Definition placeStorageOrderRaw (extrinsic : Payload)
    : Async Node StoredResource :=
  await! _ <- isReadyOrError ;;
  match api_tx extrinsic with
  | inl e => throw e
  | inr tx =>
      newPromise (fun p n =>
        if String.eqb (method (call tx)) "placeStorageOrder"
        then sendAndWatch tx onPlaceStorageOrder p n
        else (reject (MkError "Only Support placeStorageOrder method") p, n))
  end.

(** [CrustNoSeed.addPrepaidAmountRaw], the same text in index.ts and
    part_000 *)
Definition addPrepaidAmountRaw (extrinsic : Payload)
    : Async Node StoredResource :=
  await! _ <- isReadyOrError ;;
  match api_tx extrinsic with
  | inl e => throw e
  | inr tx =>
      let cid := optProp (prop (call_toHuman (call tx)) "args") "cid" in
      newPromise (fun p n =>
        if negb (String.eqb (typeof cid) "string")
        then (reject (MkError "Not Valid Cid") p, n)
        else if String.eqb (method (call tx)) "addPrepaid"
        then sendAndWatch tx (onAddPrepaid cid) p n
        else (reject (MkError "Only Support addPrepaid method") p, n))
  end.

End WithCodec.

(** [getOrderStatus]: [None] is the [null] of an absent entry. *)
Definition getOrderStatus (fileCid : string) : Async Node (option OrderStatus) :=
  await! _ <- isReadyOrError ;;
  fun n => (Fulfilled (filesV2 n !! fileCid), n).

(** Class [Crust] of part_000, layered on [CrustNoSeed]: build, sign,
    submit raw.  [krp] is the key pair derived from the seeds. *)
Module LayeredCrust.
Section WithCodec.
Context `{Codec}.

Definition placeStorageOrder (krp : string) (entry : Entry.t)
    : Async Node StoredResource :=
  await! ex <- getPlaceStorageOrderRaw entry ;;
  match getTx ex with
  | inl e => throw e
  | inr unsigned =>
      let tx := toHex (signAsync krp unsigned) in
      placeStorageOrderRaw tx
  end.

Definition addPrepaidAmount (krp : string) (fileCid : string) (amount : Z)
    : Async Node StoredResource :=
  await! ex <- getAddPrepaidAmountRaw fileCid amount ;;
  match getTx ex with
  | inl e => throw e
  | inr unsigned =>
      let tx := toHex (signAsync krp unsigned) in
      addPrepaidAmountRaw tx
  end.

End WithCodec.
End LayeredCrust.

(** Class [Crust] of index.ts: [size] is mandatory there, and the call
    is signed and sent in one step ([tx.signAndSend(krp, cb)]). *)
Module IndexCrust.

Record SizedEntry := {
  cid : string;
  size : Z;
  type : string;
  tips : option Z;
}.

Definition placeStorageOrder (krp : string) (entry : SizedEntry)
    : Async Node StoredResource :=
  await! _ <- isReadyOrError ;;
  let fileCid := cid entry in
  let fileSize := size entry in
  let memo := if String.eqb (type entry) "directory" then "folder" else "" in
  let tx := market_placeStorageOrder fileCid fileSize (default 0 (tips entry)) memo in
  newPromise (fun p n => sendAndWatch (signAsync krp tx) onPlaceStorageOrder p n).

Definition addPrepaidAmount (krp : string) (fileCid : string) (amount : Z)
    : Async Node StoredResource :=
  await! _ <- isReadyOrError ;;
  let tx := market_addPrepaid fileCid amount in
  newPromise (fun p n =>
    sendAndWatch (signAsync krp tx) (onAddPrepaid (JStr fileCid)) p n).

End IndexCrust.

End Plain.

(** ** The connection manager with idle countdown
    ([src/unnamed/part_001]) *)

Module Idle.

Definition countDownSec : Z := 60.

(** One [ApiPromise] object as the manager reads it: the [isConnected]
    getter and the [isReadyOrError] promise.  Its provider connects by
    itself, and keeps trying, from construction until [disconnect()]
    is called on it; [api_autoConnect] says whether it still does. *)
Record Api := {
  api_isConnected : bool;
  api_isReadyOrError : Promise unit;
  api_autoConnect : bool;
}.

(** The manager and its surroundings.  [apis] lists every [ApiPromise]
    constructed so far, a handle being its index; [timers] maps the
    identifier of each pending [setTimeout(this.disconnect, _)] to its
    due time in milliseconds; [endpointUp] says whether the endpoint
    accepts sessions; [api], [net] and [countDown] are the private
    fields. *)
Record State := {
  endpointUp : bool;
  now : Z;
  apis : list Api;
  timers : gmap nat Z;
  nextTimer : nat;
  api : nat;
  net : string;
  countDown : nat;
}.

Definition connectionError : Error := MkError "connection failed".

Definition withApis (f : list Api -> list Api) (s : State) : State :=
  {| endpointUp := endpointUp s; now := now s; apis := f (apis s);
     timers := timers s; nextTimer := nextTimer s;
     api := api s; net := net s; countDown := countDown s |}.

(** [new ApiPromise({provider: new WsProvider(net), ...})]: a fresh
    object that starts connecting; its handle is returned. *)
Definition newApiPromise (s : State) : nat * State :=
  (length (apis s),
   withApis (fun l => l ++ [{| api_isConnected := false;
                               api_isReadyOrError := Pending;
                               api_autoConnect := true |}]) s).

(** [await h.isReadyOrError]: a promise already settled is read back;
    a pending one of a transport that is connecting settles now, by
    the state of the endpoint; a pending one of a transport that was
    disconnected before it got ready never settles. *)
Definition awaitReady (h : nat) : Async State unit :=
  fun s =>
    match apis s !! h with
    | None => (Pending, s)
    | Some a =>
        match api_isReadyOrError a with
        | Pending =>
            if api_autoConnect a
            then
              if endpointUp s
              then (Fulfilled (),
                    withApis (fun l => <[h := {| api_isConnected := true;
                                                api_isReadyOrError := Fulfilled ();
                                                api_autoConnect := true |}]> l) s)
              else (Rejected connectionError,
                    withApis (fun l => <[h := {| api_isConnected := false;
                                                api_isReadyOrError := Rejected connectionError;
                                                api_autoConnect := true |}]> l) s)
            else (Pending, s)
        | p => (p, s)
        end
    end.

(** [h.disconnect()]: the socket is closed and the provider stops
    connecting by itself. *)
Definition apiDisconnect (h : nat) : Async State unit :=
  fun s =>
    match apis s !! h with
    | None => (Fulfilled (), s)
    | Some a =>
        (Fulfilled (),
         withApis (fun l => <[h := {| api_isConnected := false;
                                     api_isReadyOrError := api_isReadyOrError a;
                                     api_autoConnect := false |}]> l) s)
    end.

(** What a transport does by itself while it is not connected and
    still connecting: with the endpoint up it connects and becomes
    ready, unless its readiness promise was rejected before; with the
    endpoint down the attempt fails and the readiness promise rejects. *)
Definition settleApi (up : bool) (a : Api) : Api :=
  if api_autoConnect a && negb (api_isConnected a)
  then
    if up
    then {| api_isConnected := true;
            api_isReadyOrError := resolve () (api_isReadyOrError a);
            api_autoConnect := true |}
    else {| api_isConnected := false;
            api_isReadyOrError := reject connectionError (api_isReadyOrError a);
            api_autoConnect := true |}
  else a.

(** [isConnected = () => this.#api.isConnected] *)
Definition isConnected (s : State) : bool :=
  match apis s !! api s with
  | Some a => api_isConnected a
  | None => false
  end.

(** [disconnect = async () => await this.#api.disconnect()] *)
Definition disconnect : Async State unit :=
  fun s => apiDisconnect (api s) s.

(** [connect]: a new [ApiPromise] replaces [this.#api], then its
    readiness is awaited.  Nothing is called on the transport
    replaced: it is left to itself, and since its attempt to connect,
    if one is under way, began before that of the new transport, it is
    through by the time the readiness of the new one has been
    awaited. *)
Definition connect : Async State unit :=
  fun s =>
    let replaced := api s in
    let (h, s1) := newApiPromise s in
    let s2 := {| endpointUp := endpointUp s1; now := now s1; apis := apis s1;
                 timers := timers s1; nextTimer := nextTimer s1;
                 api := h; net := net s1; countDown := countDown s1 |} in
    awaitReady h (withApis (alter (settleApi (endpointUp s)) replaced) s2).

(** [clearTimeout(id)] *)
Definition clearTimeout (id : nat) (s : State) : State :=
  {| endpointUp := endpointUp s; now := now s; apis := apis s;
     timers := delete id (timers s); nextTimer := nextTimer s;
     api := api s; net := net s; countDown := countDown s |}.

(** [#setCountDown]:
    [this.#countDown = setTimeout(this.disconnect, countDownSec * 1000)] *)
Definition setCountDown (s : State) : State :=
  {| endpointUp := endpointUp s; now := now s; apis := apis s;
     timers := <[nextTimer s := now s + countDownSec * 1000]> (timers s);
     nextTimer := S (nextTimer s);
     api := api s; net := net s; countDown := nextTimer s |}.

(** [isReadyOrError] *)
Definition isReadyOrError : Async State unit :=
  await! _ <- (fun s => if negb (isConnected s) then connect s
                        else (Fulfilled (), s)) ;;
  await! _ <- (fun s => awaitReady (api s) s) ;;
  fun s => (Fulfilled (), setCountDown (clearTimeout (countDown s) s)).

(** [getPlaceStorageOrderRaw] of part_001 *)
Definition getPlaceStorageOrderRaw `{Codec} (entry : Entry.t)
    : Async State Payload :=
  await! _ <- isReadyOrError ;;
  let fileCid := Entry.cid entry in
  let fileSize := Entry.size entry in
  let memo := if String.eqb (Entry.type entry) "directory" then "folder" else "" in
  let tx := market_placeStorageOrder fileCid (default 0 fileSize)
              (default 0 (Entry.tips entry)) memo in
  ret (toHex tx).

(** [getAddPrepaidAmountRaw] of part_001 *)
Definition getAddPrepaidAmountRaw `{Codec} (fileCid : string) (amount : Z)
    : Async State Payload :=
  await! _ <- isReadyOrError ;;
  let tx := market_addPrepaid fileCid amount in
  ret (toHex tx).

(** The constructor, run at time [t] against an endpoint that is up or
    not.  The [ApiPromise] it builds starts connecting. *)
Definition constructor (parameters_net : option Net) (up : bool) (t : Z)
    : State :=
  setCountDown
    {| endpointUp := up; now := t;
       apis := [{| api_isConnected := false; api_isReadyOrError := Pending;
                   api_autoConnect := true |}];
       timers := ∅; nextTimer := 0%nat;
       api := 0%nat; net := endpoint parameters_net; countDown := 0%nat |}.

(** A timer that comes due is removed and its callback
    [this.disconnect] runs. *)
Definition fire (s : State) (id : nat) : State :=
  snd (disconnect (clearTimeout id s)).

Definition dueTimers (s : State) : list nat :=
  (map_to_list (filter (fun kv => snd kv <= now s) (timers s))).*1.

(** The countdown of the manager over [dt] milliseconds: the clock
    moves on and the timers that come due fire. *)
Definition countdown (dt : Z) (s : State) : State :=
  let s' := {| endpointUp := endpointUp s; now := now s + dt; apis := apis s;
               timers := timers s; nextTimer := nextTimer s;
               api := api s; net := net s; countDown := countDown s |} in
  foldl fire s' (dueTimers s').

(** Every transport constructed so far is left to itself for a
    moment. *)
Definition settle (s : State) : State :=
  withApis (map (settleApi (endpointUp s))) s.

(** [dt] milliseconds pass with no call on the manager: the transports
    that are connecting get through with their attempt, which takes
    less than any time the model lets pass, and the countdown runs. *)
Definition elapse (dt : Z) (s : State) : State :=
  countdown dt (if 0 <? dt then settle s else s).

(** The endpoint goes up or down. *)
Definition setEndpoint (up : bool) (s : State) : State :=
  {| endpointUp := up; now := now s; apis := apis s;
     timers := timers s; nextTimer := nextTimer s;
     api := api s; net := net s; countDown := countDown s |}.

(** The transports of the manager that are connected, by handle. *)
Definition isLive (s : State) (h : nat) : bool :=
  match apis s !! h with
  | Some a => api_isConnected a
  | None => false
  end.

Definition liveTransports (s : State) : list nat :=
  List.filter (isLive s) (seq 0 (length (apis s))).

End Idle.

(** ** The connection operations of the layered variant
    ([src/unnamed/part_000], l.43-61)

    The manager holds the one [ApiPromise] its constructor builds and
    forwards to it; it has no countdown. *)

Module Held.

Record State := {
  endpointUp : bool;
  apis : list Idle.Api;
  api : nat;
  net : string;
}.

(** The constructor, run against an endpoint that is up or not. *)
Definition constructor (parameters_net : option Net) (up : bool) : State :=
  {| endpointUp := up;
     apis := [{| Idle.api_isConnected := false;
                 Idle.api_isReadyOrError := Pending;
                 Idle.api_autoConnect := true |}];
     api := 0%nat; net := endpoint parameters_net |}.

(** [isConnected = () => this.#api.isConnected] *)
Definition isConnected (s : State) : bool :=
  match apis s !! api s with
  | Some a => Idle.api_isConnected a
  | None => false
  end.

Section Library.

(** [ApiPromise.connect()] of the library, called on one transport
    with the endpoint up or not: the promise it returns and the
    transport as it leaves it. *)
Variable api_connect : bool -> Idle.Api -> Promise unit * Idle.Api.

(** [connect = async () => await this.#api.connect()] *)
Definition connect : Async State unit :=
  fun s =>
    match apis s !! api s with
    | None => (Pending, s)
    | Some a =>
        let (p, a') := api_connect (endpointUp s) a in
        (p, {| endpointUp := endpointUp s; apis := <[api s := a']> (apis s);
               api := api s; net := net s |})
    end.

End Library.

End Held.

(** ** The shared-instance registry
    ([useCrustNoSeed] of index.ts, [useCrust] of part_000,
    [getUseCrust] of part_001) *)

Module Registry.

(** What an access does, in order: construct an instance through the
    factory, or await the readiness check of one. *)
Inductive Event :=
| Constructed (ref : nat)
| Checked (ref : nat) (outcome : Promise unit).

(** [crust] is the memoized reference, [None] before the first access.
    A reference is the allocation index of the object, so two
    references are equal exactly when they are the same object;
    [made] counts the objects allocated so far. *)
Record State := {
  crust : option nat;
  made : nat;
  trace : list Event;
}.

Section WithEnvironment.

(** How the readiness check of an instance settles, given everything
    that happened before it. *)
Variable isReadyOrError : list Event -> nat -> Promise unit.

(** The factory ([new CrustNoSeed(parameters)], or the [newCrust]
    passed in) allocates a new object. *)
Definition newCrust (s : State) : nat * State :=
  (made s,
   {| crust := crust s; made := S (made s);
      trace := trace s ++ [Constructed (made s)] |}).

(** [crust = newCrust()] *)
Definition assignNew (s : State) : State :=
  let (r, s1) := newCrust s in
  {| crust := Some r; made := made s1; trace := trace s1 |}.

(** [validReady].  The recursion of the source has no bound; [fuel]
    bounds the number of readiness checks, and an access that has used
    it up is still pending.  With no memoized instance the call
    [crust.isReadyOrError()] throws inside [try] and control reaches
    the [catch] branch as for a rejection. *)
Fixpoint validReady (fuel : nat) (s : State) : Promise nat * State :=
  match fuel with
  | O => (Pending, s)
  | S fuel' =>
      match crust s with
      | None => validReady fuel' (assignNew s)
      | Some r =>
          let o := isReadyOrError (trace s) r in
          let s1 := {| crust := crust s; made := made s;
                       trace := trace s ++ [Checked r o] |} in
          match o with
          | Fulfilled _ => (Fulfilled r, s1)
          | Rejected _ => validReady fuel' (assignNew s1)
          | Pending => (Pending, s1)
          end
      end
  end.

(** [useCrust] / [useCrustNoSeed]: one access, once
    [cryptoWaitReady()] has resolved. *)
Definition useCrust (fuel : nat) (s : State) : Promise nat * State :=
  let s1 := match crust s with
            | None => assignNew s
            | Some _ => s
            end in
  validReady fuel s1.

End WithEnvironment.

End Registry.

(** ** The signing client with order-status guard
    ([src/unnamed/part_002]) *)

Module Guarded.

(** The calls made on the ledger API, in order. *)
Inductive Op :=
| Query (fileCid : string)
| Build (tx : Extrinsic)
| SignAndSend (krp : string) (tx : Extrinsic).

Record Node := {
  api_isReadyOrError : Promise unit;
  filesV2 : gmap string OrderStatus;
  chain : Extrinsic -> SendOutcome;
  ops : list Op;
}.

Definition record (op : Op) (n : Node) : Node :=
  {| api_isReadyOrError := api_isReadyOrError n;
     filesV2 := filesV2 n;
     chain := chain n;
     ops := ops n ++ [op] |}.

(** [await this.#api.isReadyOrError] *)
Definition apiReady : Async Node unit :=
  fun n => (api_isReadyOrError n, n).

(** [getOrderStatus] *)
Definition getOrderStatus (fileCid : string) : Async Node (option OrderStatus) :=
  await! _ <- apiReady ;;
  fun n => (Fulfilled (filesV2 n !! fileCid), record (Query fileCid) n).

(** [this.#api.tx.market.placeStorageOrder(...)] *)
Definition build (tx : Extrinsic) : Async Node Extrinsic :=
  fun n => (Fulfilled tx, record (Build tx) n).

(** [tx.signAndSend(krp, cb).catch(reject)] inside an executor. *)
Definition signAndSend (krp : string) (tx : Extrinsic)
    (cb : SubmittableResult -> Promise StoredResource -> Promise StoredResource)
    (p : Promise StoredResource) (n : Node) : Promise StoredResource * Node :=
  (deliver cb (chain n (signAsync krp tx)) p, record (SignAndSend krp tx) n).

Section WithCid.

(** The content identifier class of the entry, with [toV1()] and
    [toString()]. *)
Context {CID : Type} (toV1 : CID -> CID) (toString : CID -> string).

(** [Pick<UnixFSEntry, "cid" | "size" | "type">] *)
Record Entry := {
  cid : CID;
  size : Z;
  type : string;
}.

(** [placeStorageOrder(entry, tips = 0)] *)
Definition placeStorageOrder (krp : string) (entry : Entry)
    (tips : option Z) : Async Node StoredResource :=
  let tips := default 0 tips in
  await! _ <- apiReady ;;
  await! stored <- getOrderStatus (toString (toV1 (cid entry))) ;;
  match stored with
  | Some _ => throw (MkError "File has already been stored")
  | None =>
      let fileCid := toString (toV1 (cid entry)) in
      let fileSize := size entry in
      let memo := if String.eqb (type entry) "directory" then "folder" else "" in
      await! tx <- build (market_placeStorageOrder fileCid fileSize tips memo) ;;
      fun n => signAndSend krp tx onPlaceStorageOrder Pending n
  end.

End WithCid.

End Guarded.

(** ** Vocabulary of the statements *)

(** The events contain a [FileSuccess] whose last datum reads [c],
    followed, not necessarily at once, by an [ExtrinsicSuccess]. *)
Definition FileSuccessThenExtrinsicSuccess (c : string)
    (evs : list EventRecord) : Prop :=
  exists pre fs mid es post,
    evs = pre ++ fs :: mid ++ es :: post /\
    ev_method fs = "FileSuccess" /\
    last (ev_data fs) = Some (JStr c) /\
    ev_method es = "ExtrinsicSuccess".

(** The same, where that [ExtrinsicSuccess] is the first one of the
    list and that [FileSuccess] is the last one before it. *)
Definition FileSuccessDecides (c : string) (evs : list EventRecord) : Prop :=
  exists pre fs mid es post,
    evs = pre ++ fs :: mid ++ es :: post /\
    ev_method fs = "FileSuccess" /\
    last (ev_data fs) = Some (JStr c) /\
    ev_method es = "ExtrinsicSuccess" /\
    Forall (fun e => ev_method e <> "ExtrinsicSuccess") (pre ++ mid) /\
    Forall (fun e => ev_method e <> "FileSuccess") mid.

(** [r] is the first update of [pre ++ r :: _] that reports inclusion
    in a block. *)
Definition FirstIncluded (pre : list SubmittableResult)
    (r : SubmittableResult) : Prop :=
  Forall (fun u => isInBlock u = false) pre /\ isInBlock r = true.

(** A codec to run the definitions on examples: the payload is the
    extrinsic itself. *)
Definition plainCodec : Codec :=
  {| Payload := Extrinsic; toHex := fun tx => tx; api_tx := fun x => inr x |}.

(** An event record of the given method with the given data. *)
Definition eventOf (m : string) (data : list Value) : EventRecord :=
  {| ev_section := "market"; ev_method := m; ev_data := data |}.

(** A node whose API is ready, whose chain gives every broadcast the
    answer [o], and that has sent nothing yet. *)
Definition readyNode (o : SendOutcome) : Plain.Node :=
  {| Plain.api_isReadyOrError := Fulfilled ();
     Plain.chain := fun _ => o;
     Plain.sent := [];
     Plain.filesV2 := ∅ |}.

(** The number of deliveries at which the promise under construction
    goes from pending to settled. *)
Fixpoint settlements
    (cb : SubmittableResult -> Promise StoredResource -> Promise StoredResource)
    (updates : list SubmittableResult) (p : Promise StoredResource) : nat :=
  match updates with
  | [] => 0%nat
  | u :: rest =>
      let q := cb u p in
      ((if negb (settled p) && settled q then 1 else 0)
       + settlements cb rest q)%nat
  end.

(** Every broadcast of a call named [m] is answered by [o]. *)
Definition Answers (n : Plain.Node) (m : string) (o : SendOutcome) : Prop :=
  forall tx, method (call tx) = m -> Plain.chain n tx = o.

(** The extrinsics that the signing client of index.ts sends. *)
Definition signedPlaceStorageOrder (krp : string)
    (entry : Plain.IndexCrust.SizedEntry) : Extrinsic :=
  signAsync krp
    (market_placeStorageOrder (Plain.IndexCrust.cid entry)
       (Plain.IndexCrust.size entry)
       (default 0 (Plain.IndexCrust.tips entry))
       (if String.eqb (Plain.IndexCrust.type entry) "directory"
        then "folder" else "")).

Definition signedAddPrepaid (krp fileCid : string) (amount : Z) : Extrinsic :=
  signAsync krp (market_addPrepaid fileCid amount).

(** The extrinsics that the signing client of part_000 builds, signs
    and submits raw. *)
Definition builtPlaceStorageOrder (krp : string) (entry : Entry.t) : Extrinsic :=
  signAsync krp
    (market_placeStorageOrder (Entry.cid entry)
       (default 0 (Entry.size entry)) (default 0 (Entry.tips entry))
       (if String.eqb (Entry.type entry) "directory" then "folder" else "")).

(** Decoding undoes encoding. *)
Definition RoundTrip (codec : Codec) : Prop :=
  forall tx : Extrinsic, api_tx (toHex tx) = inr tx.

(** The payload decodes to a call named [placeStorageOrder] whose
    memo argument is ["folder"] exactly for a directory and empty
    otherwise. *)
Definition PlaceOrderPayload `{Codec} (entry : Entry.t) (ex : Payload) : Prop :=
  exists tx,
    api_tx ex = inr tx /\
    method (call tx) = "placeStorageOrder" /\
    (field "memo" (args (call tx)) = JStr "folder"
     <-> Entry.type entry = "directory") /\
    (Entry.type entry <> "directory" ->
     field "memo" (args (call tx)) = JStr "").

(** The memoized reference, if any, is one of the objects allocated
    so far. *)
Definition Memoized (s : Registry.State) : Prop :=
  forall r, Registry.crust s = Some r -> (r < Registry.made s)%nat.

(** The registry before the first access. *)
Definition emptyRegistry : Registry.State :=
  {| Registry.crust := None; Registry.made := 0%nat; Registry.trace := [] |}.

(** At most one countdown is pending, and it is the one the manager
    remembers in [#countDown]. *)
Definition OneCountdown (s : Idle.State) : Prop :=
  dom (Idle.timers s) ⊆ {[ Idle.countDown s ]}.

(** ** The signing operations of the idle-timeout variant
    (class [Crust] of [src/unnamed/part_001]) *)

Module IdleSign.
Section WithCodec.
Context `{Codec}.

(** [getTx] *)
Definition getTx (extrinsic : Payload) : Error + Extrinsic := api_tx extrinsic.

(** [signPlaceStorageOrderEx] *)
Definition signPlaceStorageOrderEx (krp : string) (ex : Payload)
    : Async Idle.State Payload :=
  await! _ <- Idle.isReadyOrError ;;
  match getTx ex with
  | inl e => throw e
  | inr tx =>
      if String.eqb (method (call tx)) "placeStorageOrder"
      then let signedTx := signAsync krp tx in ret (toHex signedTx)
      else throw (MkError "Method error")
  end.

(** [signAddPrepaidAmountEx] *)
Definition signAddPrepaidAmountEx (krp : string) (ex : Payload)
    : Async Idle.State Payload :=
  await! _ <- Idle.isReadyOrError ;;
  match getTx ex with
  | inl e => throw e
  | inr tx =>
      if String.eqb (method (call tx)) "addPrepaid"
      then let signedTx := signAsync krp tx in ret (toHex signedTx)
      else throw (MkError "Method error")
  end.

End WithCodec.
End IdleSign.

(** ** Submission in the idle-timeout variant
    (class [CrustNoSeed] of [src/unnamed/part_001]) *)

Module IdleClient.

(** The connection manager together with the chain behind it. *)
Record Client := {
  conn : Idle.State;
  chain : Extrinsic -> SendOutcome;
  sent : list Extrinsic;
  filesV2 : gmap string OrderStatus;
}.

(** An operation of the manager, run inside the client. *)
Definition onConn {A} (m : Async Idle.State A) : Async Client A :=
  fun c =>
    let out := m (conn c) in
    (fst out,
     {| conn := snd out; chain := chain c; sent := sent c;
        filesV2 := filesV2 c |}).

Definition isReadyOrError : Async Client unit := onConn Idle.isReadyOrError.

(** [tx.send(cb).catch(reject)] inside an executor. *)
Definition sendAndWatch (tx : Extrinsic)
    (cb : SubmittableResult -> Promise StoredResource -> Promise StoredResource)
    (p : Promise StoredResource) (c : Client) : Promise StoredResource * Client :=
  (deliver cb (chain c tx) p,
   {| conn := conn c; chain := chain c; sent := sent c ++ [tx];
      filesV2 := filesV2 c |}).

Section WithCodec.
Context `{Codec}.

(** [placeStorageOrderRaw] of part_001 *)
Definition placeStorageOrderRaw (extrinsic : Payload)
    : Async Client StoredResource :=
  await! _ <- isReadyOrError ;;
  match api_tx extrinsic with
  | inl e => throw e
  | inr tx =>
      fun c =>
        if String.eqb (method (call tx)) "placeStorageOrder"
        then sendAndWatch tx onPlaceStorageOrder Pending c
        else (reject (MkError "Only Support placeStorageOrder method") Pending, c)
  end.

(** [addPrepaidAmountRaw] of part_001 *)
Definition addPrepaidAmountRaw (extrinsic : Payload)
    : Async Client StoredResource :=
  await! _ <- isReadyOrError ;;
  match api_tx extrinsic with
  | inl e => throw e
  | inr tx =>
      let cid := optProp (prop (call_toHuman (call tx)) "args") "cid" in
      fun c =>
        if negb (String.eqb (typeof cid) "string")
        then (reject (MkError "Not Valid Cid") Pending, c)
        else if String.eqb (method (call tx)) "addPrepaid"
        then sendAndWatch tx (onAddPrepaid cid) Pending c
        else (reject (MkError "Only Support addPrepaid method") Pending, c)
  end.

(** [Crust.placeStorageOrder] of part_001: build, sign, submit raw. *)
Definition placeStorageOrder (krp : string) (entry : Entry.t)
    : Async Client StoredResource :=
  await! ex <- onConn (Idle.getPlaceStorageOrderRaw entry) ;;
  match api_tx ex with
  | inl e => throw e
  | inr unsigned =>
      let tx := toHex (signAsync krp unsigned) in
      placeStorageOrderRaw tx
  end.

End WithCodec.

(** [getOrderStatus] of part_001 *)
Definition getOrderStatus (fileCid : string)
    : Async Client (option OrderStatus) :=
  await! _ <- isReadyOrError ;;
  fun c => (Fulfilled (filesV2 c !! fileCid), c).

End IdleClient.

(** ** [addPrepaidAmount] of [src/unnamed/part_002] *)

Module GuardedPrepaid.

Definition addPrepaidAmount (krp : string) (fileCid : string) (amount : Z)
    : Async Guarded.Node StoredResource :=
  await! _ <- Guarded.apiReady ;;
  await! tx <- Guarded.build (market_addPrepaid fileCid amount) ;;
  fun n => Guarded.signAndSend krp tx (onAddPrepaid (JStr fileCid)) Pending n.

End GuardedPrepaid.

(** ** Runs of the connection manager *)

(** What can happen to a manager of the idle-timeout variant through
    its own code: a call of one of its public operations, its
    countdown running for some time, or the endpoint going up or
    down. *)
Inductive Action :=
| CallIsReadyOrError
| CallConnect
| CallDisconnect
| Wait (dt : Z)
| Endpoint (up : bool).

Definition step (s : Idle.State) (a : Action) : Idle.State :=
  match a with
  | CallIsReadyOrError => snd (Idle.isReadyOrError s)
  | CallConnect => snd (Idle.connect s)
  | CallDisconnect => snd (Idle.disconnect s)
  | Wait dt => Idle.countdown dt s
  | Endpoint up => Idle.setEndpoint up s
  end.

Definition run (acts : list Action) (s : Idle.State) : Idle.State :=
  foldl step s acts.

(** ** More vocabulary *)

(** Some update reports inclusion with an [ExtrinsicSuccess] event. *)
Definition hasSuccess (u : SubmittableResult) : bool :=
  isInBlock u
  && existsb (fun e => String.eqb (ev_method e) "ExtrinsicSuccess") (events u).

(** An update with its events taken away. *)
Definition withoutEvents (u : SubmittableResult) : SubmittableResult :=
  {| status := status u; events := []; txHash := txHash u |}.

(** The constructions and the rejected readiness checks of a trace. *)
Definition constructions (t : list Registry.Event) : nat :=
  length (List.filter (fun ev => match ev with
                                 | Registry.Constructed _ => true
                                 | _ => false
                                 end) t).

Definition rejections (t : list Registry.Event) : nat :=
  length (List.filter (fun ev => match ev with
                                 | Registry.Checked _ (Rejected _) => true
                                 | _ => false
                                 end) t).

(** The entry of index.ts that says what an entry of part_000 says,
    an omitted size being sent as 0. *)
Definition sized (entry : Entry.t) : Plain.IndexCrust.SizedEntry :=
  {| Plain.IndexCrust.cid := Entry.cid entry;
     Plain.IndexCrust.size := default 0 (Entry.size entry);
     Plain.IndexCrust.type := Entry.type entry;
     Plain.IndexCrust.tips := Entry.tips entry |}.

(** A client of the idle-timeout variant around a manager. *)
Definition clientOf (s : Idle.State) (o : SendOutcome) : IdleClient.Client :=
  {| IdleClient.conn := s;
     IdleClient.chain := fun _ => o;
     IdleClient.sent := [];
     IdleClient.filesV2 := ∅ |}.

(* ================================================================== *)
(** * Part II: properties                                              *)
(* ================================================================== *)

(** ** Promises and status callbacks *)

Lemma resolve_settled {A} (a : A) (p : Promise A) :
  settled p = true -> resolve a p = p.
Proof. by destruct p. Qed.

Lemma reject_settled {A} e (p : Promise A) :
  settled p = true -> reject e p = p.
Proof. by destruct p. Qed.

Lemma scanEvent_settled h cid0 p ev :
  settled p = true -> snd (scanEvent h (cid0, p) ev) = p.
Proof.
  intros Hp. unfold scanEvent; simpl.
  destruct (String.eqb (ev_method ev) "ExtrinsicSuccess"); [|done].
  by apply resolve_settled.
Qed.

Lemma scan_settled h evs cid0 p :
  settled p = true ->
  snd (fold_left (scanEvent h) evs (cid0, p)) = p.
Proof.
  revert cid0. induction evs as [|ev evs IH]; intros cid0 Hp; [done|].
  simpl. destruct (scanEvent h (cid0, p) ev) as [cid1 p1] eqn:E.
  assert (p1 = p) as ->.
  { change p1 with (snd (cid1, p1)). rewrite <- E. by apply scanEvent_settled. }
  by apply IH.
Qed.

Lemma scan_pending h evs cid0 :
  Forall (fun e => ev_method e <> "ExtrinsicSuccess") evs ->
  snd (fold_left (scanEvent h) evs (cid0, Pending)) = Pending.
Proof.
  revert cid0. induction evs as [|ev evs IH]; intros cid0 Hno; [done|].
  inversion Hno as [|? ? Hev Hrest]; subst. simpl.
  unfold scanEvent at 2; simpl.
  apply String.eqb_neq in Hev. rewrite Hev. by apply IH.
Qed.

Lemma scan_quiet h evs cid0 (p : Promise StoredResource) :
  Forall (fun e => ev_method e <> "ExtrinsicSuccess") evs ->
  Forall (fun e => ev_method e <> "FileSuccess") evs ->
  fold_left (scanEvent h) evs (cid0, p) = (cid0, p).
Proof.
  induction evs as [|ev evs IH]; intros Hes Hfs; [done|].
  inversion Hes as [|? ? Hev1 Hrest1]; inversion Hfs as [|? ? Hev2 Hrest2]; subst.
  simpl. unfold scanEvent at 2; simpl.
  apply String.eqb_neq in Hev1, Hev2. rewrite Hev1, Hev2. by apply IH.
Qed.

(** The scan of a list in which a [FileSuccess] decides the first
    [ExtrinsicSuccess] resolves with the datum of that [FileSuccess]. *)
Lemma scan_decides h c evs :
  FileSuccessDecides c evs ->
  snd (fold_left (scanEvent h) evs (JUndefined, Pending))
  = Fulfilled {| hash := JStr h; cid := JStr c |}.
Proof.
  intros (pre & fs & mid & es & post & -> & Hfs & Hlast & Hes & Hno & Hmid).
  apply Forall_app in Hno as [Hpre Hmid'].
  rewrite fold_left_app.
  destruct (fold_left (scanEvent h) pre (JUndefined, Pending)) as [cid1 p1] eqn:E1.
  assert (p1 = Pending) as ->.
  { change p1 with (snd (cid1, p1)). rewrite <- E1. by apply scan_pending. }
  simpl. unfold scanEvent at 2; simpl.
  rewrite Hfs. simpl. unfold popHuman. rewrite Hlast.
  rewrite fold_left_app, scan_quiet by done.
  simpl. unfold scanEvent at 2; simpl.
  rewrite Hes. simpl.
  by apply scan_settled.
Qed.

Lemma onPlaceStorageOrder_settled r p :
  settled p = true -> onPlaceStorageOrder r p = p.
Proof.
  intros Hp. unfold onPlaceStorageOrder.
  destruct (isInBlock r); [|done]. by apply scan_settled.
Qed.

Lemma onAddPrepaid_settled c r p :
  settled p = true -> onAddPrepaid c r p = p.
Proof.
  intros Hp. unfold onAddPrepaid.
  destruct (isInBlock r); [|done]. by apply resolve_settled.
Qed.

(** Updates delivered to a settled promise leave it as it is. *)
Lemma updates_settled
    (cb : SubmittableResult -> Promise StoredResource -> Promise StoredResource)
    us p :
  (forall u q, settled q = true -> cb u q = q) ->
  settled p = true ->
  fold_left (fun q r => cb r q) us p = p.
Proof.
  intros Hcb. induction us as [|u us IH]; intros Hp; [done|].
  simpl. rewrite Hcb by done. by apply IH.
Qed.

(** Updates before inclusion are skipped. *)
Lemma updates_skipped
    (cb : SubmittableResult -> Promise StoredResource -> Promise StoredResource)
    pre p :
  (forall u q, isInBlock u = false -> cb u q = q) ->
  Forall (fun u => isInBlock u = false) pre ->
  fold_left (fun q r => cb r q) pre p = p.
Proof.
  intros Hcb. induction pre as [|u us IH]; intros Hpre; [done|].
  inversion Hpre; subst. simpl. rewrite Hcb by done. by apply IH.
Qed.

(** A subscription whose first included update fulfils the promise
    with [v] ends fulfilled with [v], whatever follows. *)
Lemma deliver_first_included
    (cb : SubmittableResult -> Promise StoredResource -> Promise StoredResource)
    pre r more v :
  (forall u q, isInBlock u = false -> cb u q = q) ->
  (forall u q, settled q = true -> cb u q = q) ->
  FirstIncluded pre r ->
  cb r Pending = Fulfilled v ->
  deliver cb (Subscribed (pre ++ r :: more)) Pending = Fulfilled v.
Proof.
  intros Hskip Hset [Hpre _] Hr. simpl.
  rewrite fold_left_app, (updates_skipped cb pre Pending Hskip Hpre).
  simpl. rewrite Hr. by apply updates_settled.
Qed.

Lemma onPlaceStorageOrder_skip u q :
  isInBlock u = false -> onPlaceStorageOrder u q = q.
Proof. intros Hu. unfold onPlaceStorageOrder. by rewrite Hu. Qed.

Lemma onAddPrepaid_skip c u q :
  isInBlock u = false -> onAddPrepaid c u q = q.
Proof. intros Hu. unfold onAddPrepaid. by rewrite Hu. Qed.

Lemma deliver_placeStorageOrder pre r more c :
  FirstIncluded pre r ->
  FileSuccessDecides c (events r) ->
  deliver onPlaceStorageOrder (Subscribed (pre ++ r :: more)) Pending
  = Fulfilled {| hash := JStr (txHash r); cid := JStr c |}.
Proof.
  intros Hfirst Hevs.
  apply deliver_first_included; try done.
  - apply onPlaceStorageOrder_skip.
  - apply onPlaceStorageOrder_settled.
  - unfold onPlaceStorageOrder. destruct Hfirst as [_ ->].
    by apply scan_decides.
Qed.

Lemma settlements_settled cb us p :
  (forall u q, settled q = true -> cb u q = q) ->
  settled p = true -> settlements cb us p = 0%nat.
Proof.
  intros Hcb. induction us as [|u us IH]; intros Hp; [done|].
  simpl. rewrite Hcb by done. rewrite Hp. simpl. by apply IH.
Qed.

Lemma settlements_skipped cb pre rest p :
  (forall u q, isInBlock u = false -> cb u q = q) ->
  Forall (fun u => isInBlock u = false) pre ->
  settlements cb (pre ++ rest) p = settlements cb rest p.
Proof.
  intros Hcb. induction pre as [|u us IH]; intros Hpre; [done|].
  inversion Hpre; subst. simpl. rewrite Hcb by done.
  rewrite andb_negb_l. simpl. by apply IH.
Qed.

Lemma settlements_first_included cb pre r more v :
  (forall u q, isInBlock u = false -> cb u q = q) ->
  (forall u q, settled q = true -> cb u q = q) ->
  FirstIncluded pre r ->
  cb r Pending = Fulfilled v ->
  settlements cb (pre ++ r :: more) Pending = 1%nat.
Proof.
  intros Hskip Hset [Hpre _] Hr.
  rewrite settlements_skipped by done.
  simpl. rewrite Hr. simpl. by rewrite settlements_settled.
Qed.

(** ** Submission through the raw and the signing paths *)

Section Submission.
Context `{Codec}.

Lemma placeStorageOrderRaw_unfold n extrinsic tx :
  Plain.api_isReadyOrError n = Fulfilled () ->
  api_tx extrinsic = inr tx ->
  Plain.placeStorageOrderRaw extrinsic n =
    if String.eqb (method (call tx)) "placeStorageOrder"
    then Plain.sendAndWatch tx onPlaceStorageOrder Pending n
    else (Rejected (MkError "Only Support placeStorageOrder method"), n).
Proof.
  intros Hready Htx.
  unfold Plain.placeStorageOrderRaw, await, Plain.isReadyOrError.
  rewrite Hready, Htx. reflexivity.
Qed.

Lemma cid_of_payload (c : Call) :
  optProp (prop (call_toHuman c) "args") "cid" = field "cid" (args c).
Proof. reflexivity. Qed.

Lemma addPrepaidAmountRaw_unfold n extrinsic tx :
  Plain.api_isReadyOrError n = Fulfilled () ->
  api_tx extrinsic = inr tx ->
  Plain.addPrepaidAmountRaw extrinsic n =
    let cid := field "cid" (args (call tx)) in
    if negb (String.eqb (typeof cid) "string")
    then (Rejected (MkError "Not Valid Cid"), n)
    else if String.eqb (method (call tx)) "addPrepaid"
    then Plain.sendAndWatch tx (onAddPrepaid cid) Pending n
    else (Rejected (MkError "Only Support addPrepaid method"), n).
Proof.
  intros Hready Htx.
  unfold Plain.addPrepaidAmountRaw, await, Plain.isReadyOrError.
  rewrite Hready, Htx. reflexivity.
Qed.

End Submission.

Lemma index_placeStorageOrder_unfold n krp entry :
  Plain.api_isReadyOrError n = Fulfilled () ->
  Plain.IndexCrust.placeStorageOrder krp entry n =
    Plain.sendAndWatch (signedPlaceStorageOrder krp entry)
      onPlaceStorageOrder Pending n.
Proof.
  intros Hready.
  unfold Plain.IndexCrust.placeStorageOrder, await, Plain.isReadyOrError.
  rewrite Hready. reflexivity.
Qed.

Lemma index_addPrepaidAmount_unfold n krp fileCid amount :
  Plain.api_isReadyOrError n = Fulfilled () ->
  Plain.IndexCrust.addPrepaidAmount krp fileCid amount n =
    Plain.sendAndWatch (signedAddPrepaid krp fileCid amount)
      (onAddPrepaid (JStr fileCid)) Pending n.
Proof.
  intros Hready.
  unfold Plain.IndexCrust.addPrepaidAmount, await, Plain.isReadyOrError.
  rewrite Hready. reflexivity.
Qed.

(** The signing client of part_000 passes the checks of the raw
    paths with the payloads it builds itself. *)
Lemma layered_placeStorageOrder_unfold `{Codec} n krp entry :
  RoundTrip _ ->
  Plain.api_isReadyOrError n = Fulfilled () ->
  Plain.LayeredCrust.placeStorageOrder krp entry n =
    Plain.sendAndWatch (builtPlaceStorageOrder krp entry)
      onPlaceStorageOrder Pending n.
Proof.
  intros Hrt Hready.
  unfold Plain.LayeredCrust.placeStorageOrder, await at 1.
  unfold Plain.getPlaceStorageOrderRaw, await, Plain.isReadyOrError.
  rewrite Hready. simpl. unfold Plain.getTx. rewrite Hrt.
  rewrite (placeStorageOrderRaw_unfold n _ _ Hready (Hrt _)).
  reflexivity.
Qed.

Lemma layered_addPrepaidAmount_unfold `{Codec} n krp fileCid amount :
  RoundTrip _ ->
  Plain.api_isReadyOrError n = Fulfilled () ->
  Plain.LayeredCrust.addPrepaidAmount krp fileCid amount n =
    Plain.sendAndWatch (signedAddPrepaid krp fileCid amount)
      (onAddPrepaid (JStr fileCid)) Pending n.
Proof.
  intros Hrt Hready.
  unfold Plain.LayeredCrust.addPrepaidAmount, await at 1.
  unfold Plain.getAddPrepaidAmountRaw, await, Plain.isReadyOrError.
  rewrite Hready. simpl. unfold Plain.getTx. rewrite Hrt.
  rewrite (addPrepaidAmountRaw_unfold n _ _ Hready (Hrt _)).
  reflexivity.
Qed.

(** C1 (as amended).  A place-order submission is broadcast to a ready
    node, and the first update that reports inclusion carries a
    [FileSuccess] event whose last datum reads [c], then an
    [ExtrinsicSuccess] event, with no [ExtrinsicSuccess] before that
    one and no other [FileSuccess] between the two.  Then the promise
    of the raw path, of the signing path of index.ts and of the
    signing path of part_000 ends fulfilled with the transaction hash
    and [c], whatever updates [more] follow, and the promise settles
    at exactly one delivery. *)
Theorem placeStorageOrder_resolves_once :
  forall (pre : list SubmittableResult) (r : SubmittableResult)
         (more : list SubmittableResult) (c : string) (n : Plain.Node),
    FirstIncluded pre r ->
    FileSuccessDecides c (events r) ->
    Plain.api_isReadyOrError n = Fulfilled () ->
    Answers n "placeStorageOrder" (Subscribed (pre ++ r :: more)) ->
    let stored := Fulfilled {| hash := JStr (txHash r); cid := JStr c |} in
    (forall (codec : Codec) (extrinsic : Payload) (tx : Extrinsic),
        api_tx extrinsic = inr tx ->
        method (call tx) = "placeStorageOrder" ->
        fst (Plain.placeStorageOrderRaw extrinsic n) = stored) /\
    (forall krp entry,
        fst (Plain.IndexCrust.placeStorageOrder krp entry n) = stored) /\
    (forall (codec : Codec) krp entry,
        RoundTrip codec ->
        fst (Plain.LayeredCrust.placeStorageOrder krp entry n) = stored) /\
    settlements onPlaceStorageOrder (pre ++ r :: more) Pending = 1%nat.
Proof.
  intros pre r more c n Hfirst Hevs Hready Hans stored.
  split; [|split; [|split]].
  - intros codec extrinsic tx Htx Hm.
    rewrite (placeStorageOrderRaw_unfold n extrinsic tx Hready Htx).
    rewrite Hm. simpl. rewrite (Hans tx Hm).
    by apply deliver_placeStorageOrder.
  - intros krp entry.
    rewrite index_placeStorageOrder_unfold by done.
    unfold Plain.sendAndWatch. simpl. rewrite Hans by done.
    by apply deliver_placeStorageOrder.
  - intros codec krp entry Hrt.
    rewrite layered_placeStorageOrder_unfold by done.
    unfold Plain.sendAndWatch. simpl. rewrite Hans by done.
    by apply deliver_placeStorageOrder.
  - apply settlements_first_included
      with (v := {| hash := JStr (txHash r); cid := JStr c |}); try done.
    + apply onPlaceStorageOrder_skip.
    + apply onPlaceStorageOrder_settled.
    + unfold onPlaceStorageOrder. destruct Hfirst as [_ ->].
      by apply scan_decides.
Qed.

(** The scenario of the specification: [FileSuccess] with last datum
    ["bafy123"], then [ExtrinsicSuccess], with a finality update
    afterwards. *)
Lemma placeStorageOrder_resolves_once_witness :
  let r := {| status := InBlock "0xB10C";
              events := [eventOf "Transfer" [JNum 5];
                         eventOf "FileSuccess" [JStr "5Grw"; JStr "bafy123"];
                         eventOf "Withdraw" [];
                         eventOf "ExtrinsicSuccess" [JObj []]];
              txHash := "0x7A" |} in
  let wait := {| status := Ready; events := []; txHash := "0x7A" |} in
  let final := {| status := Finalized "0xB10C"; events := events r;
                  txHash := "0x7A" |} in
  fst (Plain.placeStorageOrderRaw (H := plainCodec)
         (market_placeStorageOrder "bafy123" 0 0 "")
         (readyNode (Subscribed ([wait] ++ r :: [final; r]))))
  = Fulfilled {| hash := JStr "0x7A"; cid := JStr "bafy123" |}.
Proof.
  intros r wait final.
  refine (proj1 (placeStorageOrder_resolves_once [wait] r [final; r] "bafy123"
                   (readyNode (Subscribed ([wait] ++ r :: [final; r])))
                   _ _ _ _) plainCodec _ _ _ _).
  - split; [repeat constructor | reflexivity].
  - exists [eventOf "Transfer" [JNum 5]],
           (eventOf "FileSuccess" [JStr "5Grw"; JStr "bafy123"]),
           [eventOf "Withdraw" []],
           (eventOf "ExtrinsicSuccess" [JObj []]), [].
    repeat split; try reflexivity; repeat constructor; simpl; discriminate.
  - reflexivity.
  - intros tx _. reflexivity.
  - reflexivity.
  - reflexivity.
Defined.

(** C1 as stated fails.  A [FileSuccess] reading ["bafy123"] is
    followed by an [ExtrinsicSuccess] in both streams below; in the
    first a later [FileSuccess] overwrites the identifier before the
    promise resolves, in the second an earlier [ExtrinsicSuccess]
    resolves the promise while the identifier is still undefined. *)
Lemma placeStorageOrder_other_cid :
  let fs c := eventOf "FileSuccess" [JStr c] in
  let es := eventOf "ExtrinsicSuccess" [] in
  let included evs :=
    {| status := InBlock "0xB10C"; events := evs; txHash := "0x7A" |} in
  let submit evs :=
    fst (Plain.placeStorageOrderRaw (H := plainCodec)
           (market_placeStorageOrder "bafy123" 0 0 "")
           (readyNode (Subscribed [included evs]))) in
  let claimed := Fulfilled {| hash := JStr "0x7A"; cid := JStr "bafy123" |} in
  (FileSuccessThenExtrinsicSuccess "bafy123" [fs "bafy123"; fs "bafy456"; es] /\
   submit [fs "bafy123"; fs "bafy456"; es]
   = Fulfilled {| hash := JStr "0x7A"; cid := JStr "bafy456" |} /\
   submit [fs "bafy123"; fs "bafy456"; es] <> claimed) /\
  (FileSuccessThenExtrinsicSuccess "bafy123" [es; fs "bafy123"; es] /\
   submit [es; fs "bafy123"; es]
   = Fulfilled {| hash := JStr "0x7A"; cid := JUndefined |} /\
   submit [es; fs "bafy123"; es] <> claimed).
Proof.
  intros fs es included submit claimed. split.
  - split; [|split].
    + exists [], (fs "bafy123"), [fs "bafy456"], es, []. by repeat split.
    + reflexivity.
    + vm_compute. discriminate.
  - split; [|split].
    + exists [es], (fs "bafy123"), [], es, []. by repeat split.
    + reflexivity.
    + vm_compute. discriminate.
Qed.

(** C3.  An add-prepaid submission is broadcast to a ready node.  At
    the first update that reports inclusion, whatever its events, the
    promise is fulfilled with the block hash of that update's
    [InBlock] status and with the identifier known at invocation: the
    [cid] argument of the payload on the raw path, the [fileCid]
    parameter on the signing paths of index.ts and of part_000. *)
Theorem addPrepaid_resolves_at_first_inclusion :
  forall (pre : list SubmittableResult) (r : SubmittableResult)
         (more : list SubmittableResult) (blockHash : string)
         (n : Plain.Node),
    Forall (fun u => isInBlock u = false) pre ->
    status r = InBlock blockHash ->
    Plain.api_isReadyOrError n = Fulfilled () ->
    Answers n "addPrepaid" (Subscribed (pre ++ r :: more)) ->
    (forall (codec : Codec) (extrinsic : Payload) (tx : Extrinsic) (c : string),
        api_tx extrinsic = inr tx ->
        method (call tx) = "addPrepaid" ->
        field "cid" (args (call tx)) = JStr c ->
        fst (Plain.addPrepaidAmountRaw extrinsic n)
        = Fulfilled {| hash := JStr blockHash; cid := JStr c |}) /\
    (forall krp fileCid amount,
        fst (Plain.IndexCrust.addPrepaidAmount krp fileCid amount n)
        = Fulfilled {| hash := JStr blockHash; cid := JStr fileCid |}) /\
    (forall (codec : Codec) krp fileCid amount,
        RoundTrip codec ->
        fst (Plain.LayeredCrust.addPrepaidAmount krp fileCid amount n)
        = Fulfilled {| hash := JStr blockHash; cid := JStr fileCid |}).
Proof.
  intros pre r more blockHash n Hpre Hst Hready Hans.
  assert (FirstIncluded pre r) as Hfirst.
  { split; [done|]. unfold isInBlock. by rewrite Hst. }
  assert (forall c, deliver (onAddPrepaid c) (Subscribed (pre ++ r :: more)) Pending
                    = Fulfilled {| hash := JStr blockHash; cid := c |}) as Hdel.
  { intros c. apply deliver_first_included; try done.
    - apply onAddPrepaid_skip.
    - apply onAddPrepaid_settled.
    - unfold onAddPrepaid, isInBlock. by rewrite Hst. }
  split; [|split].
  - intros codec extrinsic tx c Htx Hm Hcid.
    rewrite (addPrepaidAmountRaw_unfold n extrinsic tx Hready Htx).
    simpl. rewrite Hcid, Hm. simpl. rewrite (Hans tx Hm). apply Hdel.
  - intros krp fileCid amount.
    rewrite index_addPrepaidAmount_unfold by done.
    unfold Plain.sendAndWatch. simpl. rewrite Hans by done. apply Hdel.
  - intros codec krp fileCid amount Hrt.
    rewrite layered_addPrepaidAmount_unfold by done.
    unfold Plain.sendAndWatch. simpl. rewrite Hans by done. apply Hdel.
Qed.

(** The scenario of the specification: status [{InBlock: "0xABC"}]. *)
Lemma addPrepaid_resolves_at_first_inclusion_witness :
  let r := {| status := InBlock "0xABC"; events := []; txHash := "0x7A" |} in
  let wait := {| status := Broadcast ["peer"]; events := []; txHash := "0x7A" |} in
  fst (Plain.addPrepaidAmountRaw (H := plainCodec)
         (market_addPrepaid "bafy123" 10)
         (readyNode (Subscribed ([wait] ++ r :: [r]))))
  = Fulfilled {| hash := JStr "0xABC"; cid := JStr "bafy123" |}.
Proof.
  intros r wait.
  refine (proj1 (addPrepaid_resolves_at_first_inclusion [wait] r [r] "0xABC"
                   (readyNode (Subscribed ([wait] ++ r :: [r])))
                   _ _ _ _) plainCodec _ _ _ _ _ _).
  - repeat constructor.
  - reflexivity.
  - reflexivity.
  - intros tx _. reflexivity.
  - reflexivity.
  - reflexivity.
  - reflexivity.
Defined.

(** ** Where the hash of a stored resource comes from *)

Lemma scan_fulfilled h evs cid0 p sr :
  snd (fold_left (scanEvent h) evs (cid0, p)) = Fulfilled sr ->
  p = Fulfilled sr \/ hash sr = JStr h.
Proof.
  revert cid0 p. induction evs as [|ev evs IH]; intros cid0 p Hfold.
  - by left.
  - simpl in Hfold.
    destruct (scanEvent h (cid0, p) ev) as [cid1 p1] eqn:E.
    apply IH in Hfold as [-> | Hh]; [|by right].
    unfold scanEvent in E; simpl in E.
    destruct (String.eqb (ev_method ev) "ExtrinsicSuccess").
    + destruct p; simpl in E; inversion E; subst; [by right | by left].
    + inversion E; subst. by left.
Qed.

Lemma updates_place_fulfilled us p sr :
  fold_left (fun q r => onPlaceStorageOrder r q) us p = Fulfilled sr ->
  p = Fulfilled sr \/
  exists r, r ∈ us /\ isInBlock r = true /\ hash sr = JStr (txHash r).
Proof.
  revert p. induction us as [|u us IH]; intros p Hfold.
  - by left.
  - simpl in Hfold. apply IH in Hfold as [Hu | (r & Hin & Hr)].
    + unfold onPlaceStorageOrder in Hu.
      destruct (isInBlock u) eqn:Eu; [|by left].
      apply scan_fulfilled in Hu as [-> | Hh]; [by left|].
      right. exists u. split; [apply list_elem_of_here | done].
    + right. exists r. split; [by apply list_elem_of_further | done].
Qed.

Lemma updates_prepaid_fulfilled c us p sr :
  fold_left (fun q r => onAddPrepaid c r q) us p = Fulfilled sr ->
  p = Fulfilled sr \/
  exists r blockHash,
    r ∈ us /\ status r = InBlock blockHash /\
    sr = {| hash := JStr blockHash; cid := c |}.
Proof.
  revert p. induction us as [|u us IH]; intros p Hfold.
  - by left.
  - simpl in Hfold. apply IH in Hfold as [Hu | (r & b & Hin & Hr)].
    + unfold onAddPrepaid, isInBlock in Hu.
      destruct (status u) as [| | | b | | | | | |] eqn:Eu; simpl in Hu;
        try by left.
      destruct p; simpl in Hu; [|by left|done].
      right. exists u, b. split; [apply list_elem_of_here|].
      split; [done | congruence].
    + right. exists r, b. split; [by apply list_elem_of_further | done].
Qed.

Lemma deliver_place_fulfilled o sr :
  deliver onPlaceStorageOrder o Pending = Fulfilled sr ->
  exists us r, o = Subscribed us /\ r ∈ us /\ isInBlock r = true /\
               hash sr = JStr (txHash r).
Proof.
  destruct o as [e | us]; simpl; [done|].
  intros Hfold. apply updates_place_fulfilled in Hfold as [? | (r & ?)]; [done|].
  by exists us, r.
Qed.

Lemma deliver_prepaid_fulfilled c o sr :
  deliver (onAddPrepaid c) o Pending = Fulfilled sr ->
  exists us r blockHash,
    o = Subscribed us /\ r ∈ us /\ status r = InBlock blockHash /\
    sr = {| hash := JStr blockHash; cid := c |}.
Proof.
  destruct o as [e | us]; simpl; [done|].
  intros Hfold.
  apply updates_prepaid_fulfilled in Hfold as [? | (r & b & ?)]; [done|].
  by exists us, r, b.
Qed.

(** C4 (as amended).  The hash of the resource a submission resolves
    with is, for a place-order submission, the transaction hash
    carried by an included status update of that broadcast, and, for
    an add-prepaid submission, the block hash of the [InBlock] status
    of such an update.  This on the raw paths, on the signing paths of
    index.ts and, with a codec that decodes what it encodes, on the
    signing paths of part_000. *)
Theorem stored_hash_origin :
  forall (codec : Codec) (n : Plain.Node) (extrinsic : Payload)
         (sr : StoredResource),
    (fst (Plain.placeStorageOrderRaw extrinsic n) = Fulfilled sr ->
     exists tx us r,
       api_tx extrinsic = inr tx /\ Plain.chain n tx = Subscribed us /\
       r ∈ us /\ isInBlock r = true /\ hash sr = JStr (txHash r)) /\
    (fst (Plain.addPrepaidAmountRaw extrinsic n) = Fulfilled sr ->
     exists tx us r blockHash,
       api_tx extrinsic = inr tx /\ Plain.chain n tx = Subscribed us /\
       r ∈ us /\ status r = InBlock blockHash /\ hash sr = JStr blockHash) /\
    (forall krp entry,
       fst (Plain.IndexCrust.placeStorageOrder krp entry n) = Fulfilled sr ->
       exists us r,
         Plain.chain n (signedPlaceStorageOrder krp entry) = Subscribed us /\
         r ∈ us /\ isInBlock r = true /\ hash sr = JStr (txHash r)) /\
    (forall krp fileCid amount,
       fst (Plain.IndexCrust.addPrepaidAmount krp fileCid amount n) = Fulfilled sr ->
       exists us r blockHash,
         Plain.chain n (signedAddPrepaid krp fileCid amount) = Subscribed us /\
         r ∈ us /\ status r = InBlock blockHash /\ hash sr = JStr blockHash) /\
    (forall krp entry,
       RoundTrip codec ->
       fst (Plain.LayeredCrust.placeStorageOrder krp entry n) = Fulfilled sr ->
       exists us r,
         Plain.chain n (builtPlaceStorageOrder krp entry) = Subscribed us /\
         r ∈ us /\ isInBlock r = true /\ hash sr = JStr (txHash r)) /\
    (forall krp fileCid amount,
       RoundTrip codec ->
       fst (Plain.LayeredCrust.addPrepaidAmount krp fileCid amount n) = Fulfilled sr ->
       exists us r blockHash,
         Plain.chain n (signedAddPrepaid krp fileCid amount) = Subscribed us /\
         r ∈ us /\ status r = InBlock blockHash /\ hash sr = JStr blockHash).
Proof.
  intros codec n extrinsic sr.
  split; [|split; [|split; [|split; [|split]]]].
  - unfold Plain.placeStorageOrderRaw, await, Plain.isReadyOrError.
    destruct (Plain.api_isReadyOrError n); simpl; try done.
    destruct (api_tx extrinsic) as [e | tx] eqn:Etx; simpl; [done|].
    unfold Plain.newPromise.
    destruct (String.eqb (method (call tx)) "placeStorageOrder"); simpl; [|done].
    intros Hd. apply deliver_place_fulfilled in Hd as (us & r & ? & ? & ? & ?).
    by exists tx, us, r.
  - unfold Plain.addPrepaidAmountRaw, await, Plain.isReadyOrError.
    destruct (Plain.api_isReadyOrError n); simpl; try done.
    destruct (api_tx extrinsic) as [e | tx] eqn:Etx; simpl; [done|].
    unfold Plain.newPromise.
    destruct (negb _); simpl; [done|].
    destruct (String.eqb (method (call tx)) "addPrepaid"); simpl; [|done].
    intros Hd.
    apply deliver_prepaid_fulfilled in Hd as (us & r & b & ? & ? & ? & ->).
    by exists tx, us, r, b.
  - intros krp entry.
    unfold Plain.IndexCrust.placeStorageOrder, await, Plain.isReadyOrError.
    destruct (Plain.api_isReadyOrError n); simpl; try done.
    intros Hd. apply deliver_place_fulfilled in Hd as (us & r & ? & ? & ? & ?).
    by exists us, r.
  - intros krp fileCid amount.
    unfold Plain.IndexCrust.addPrepaidAmount, await, Plain.isReadyOrError.
    destruct (Plain.api_isReadyOrError n); simpl; try done.
    intros Hd.
    apply deliver_prepaid_fulfilled in Hd as (us & r & b & ? & ? & ? & ->).
    by exists us, r, b.
  - intros krp entry Hrt.
    destruct (Plain.api_isReadyOrError n) as [|[]|e] eqn:Hready.
    + unfold Plain.LayeredCrust.placeStorageOrder, await at 1.
      unfold Plain.getPlaceStorageOrderRaw, await, Plain.isReadyOrError.
      by rewrite Hready.
    + rewrite layered_placeStorageOrder_unfold by done.
      unfold Plain.sendAndWatch. simpl.
      intros Hd. apply deliver_place_fulfilled in Hd as (us & r & ? & ? & ? & ?).
      by exists us, r.
    + unfold Plain.LayeredCrust.placeStorageOrder, await at 1.
      unfold Plain.getPlaceStorageOrderRaw, await, Plain.isReadyOrError.
      by rewrite Hready.
  - intros krp fileCid amount Hrt.
    destruct (Plain.api_isReadyOrError n) as [|[]|e] eqn:Hready.
    + unfold Plain.LayeredCrust.addPrepaidAmount, await at 1.
      unfold Plain.getAddPrepaidAmountRaw, await, Plain.isReadyOrError.
      by rewrite Hready.
    + rewrite layered_addPrepaidAmount_unfold by done.
      unfold Plain.sendAndWatch. simpl.
      intros Hd.
      apply deliver_prepaid_fulfilled in Hd as (us & r & b & ? & ? & ? & ->).
      by exists us, r, b.
    + unfold Plain.LayeredCrust.addPrepaidAmount, await at 1.
      unfold Plain.getAddPrepaidAmountRaw, await, Plain.isReadyOrError.
      by rewrite Hready.
Qed.

Lemma stored_hash_origin_witness :
  let r := {| status := InBlock "0xABC"; events := []; txHash := "0x7A" |} in
  exists tx us u blockHash,
    tx = market_addPrepaid "bafy123" 10 /\ us = [r] /\ u ∈ us /\
    status u = InBlock blockHash /\ JStr "0xABC" = JStr blockHash.
Proof.
  intros r.
  destruct (proj1 (proj2 (stored_hash_origin plainCodec
                            (readyNode (Subscribed [r]))
                            (market_addPrepaid "bafy123" 10)
                            {| hash := JStr "0xABC"; cid := JStr "bafy123" |}))
              eq_refl)
    as (tx & us & u & b & Htx & Hus & Hin & Hst & Hh).
  exists tx, us, u, b.
  simpl in Htx, Hus. inversion Htx; inversion Hus; subst. done.
Defined.

(** C4 as stated fails for add-prepaid: the resolved hash is the block
    hash of the status, not the hash of the transaction. *)
Lemma addPrepaid_hash_is_block_hash :
  let r := {| status := InBlock "0xABC"; events := []; txHash := "0x7A" |} in
  let result := fst (Plain.addPrepaidAmountRaw (H := plainCodec)
                       (market_addPrepaid "bafy123" 10)
                       (readyNode (Subscribed [r]))) in
  result = Fulfilled {| hash := JStr "0xABC"; cid := JStr "bafy123" |} /\
  result <> Fulfilled {| hash := JStr (txHash r); cid := JStr "bafy123" |}.
Proof.
  intros r result. split; [reflexivity|]. vm_compute. discriminate.
Qed.

(** ** Validation before broadcast on the raw paths *)

(** C2 (as amended).  On a ready node, a payload whose call name is
    not the one the raw path expects is rejected at once and the node,
    its send log included, is left as it was.  On the place-order path
    the error names [placeStorageOrder].  On the add-prepaid path the
    [cid] argument is inspected first: the error names [addPrepaid]
    when that argument is a string, and is the invalid-cid error
    otherwise. *)
Theorem wrong_method_rejected_without_broadcast :
  forall (codec : Codec) (n : Plain.Node) (extrinsic : Payload)
         (tx : Extrinsic),
    Plain.api_isReadyOrError n = Fulfilled () ->
    api_tx extrinsic = inr tx ->
    (method (call tx) <> "placeStorageOrder" ->
     Plain.placeStorageOrderRaw extrinsic n
     = (Rejected (MkError "Only Support placeStorageOrder method"), n)) /\
    (method (call tx) <> "addPrepaid" ->
     Plain.addPrepaidAmountRaw extrinsic n
     = (Rejected
          (MkError (if String.eqb (typeof (field "cid" (args (call tx)))) "string"
                    then "Only Support addPrepaid method"
                    else "Not Valid Cid")), n)).
Proof.
  intros codec n extrinsic tx Hready Htx. split; intros Hm.
  - rewrite (placeStorageOrderRaw_unfold n extrinsic tx Hready Htx).
    apply String.eqb_neq in Hm. by rewrite Hm.
  - rewrite (addPrepaidAmountRaw_unfold n extrinsic tx Hready Htx).
    apply String.eqb_neq in Hm. simpl. rewrite Hm.
    by destruct (String.eqb (typeof _) "string").
Qed.

(** The scenario of the specification: an [addPrepaid] payload on the
    place-order path; the send log stays empty. *)
Lemma wrong_method_rejected_without_broadcast_witness :
  let n := readyNode (Subscribed []) in
  let out := Plain.placeStorageOrderRaw (H := plainCodec)
               (market_addPrepaid "bafy123" 10) n in
  out = (Rejected (MkError "Only Support placeStorageOrder method"), n) /\
  Plain.sent (snd out) = [].
Proof.
  intros n out.
  assert (out = (Rejected (MkError "Only Support placeStorageOrder method"), n))
    as Hout.
  { refine (proj1 (wrong_method_rejected_without_broadcast plainCodec n
                     (market_addPrepaid "bafy123" 10)
                     (market_addPrepaid "bafy123" 10) _ _) _).
    - reflexivity.
    - reflexivity.
    - simpl. discriminate. }
  split; [exact Hout|]. rewrite Hout. reflexivity.
Defined.

(** C2 as stated fails on the add-prepaid path: a balance transfer,
    which has no [cid] argument, is rejected with the invalid-cid
    error, whose message does not name the expected call. *)
Lemma addPrepaidAmountRaw_wrong_method_other_error :
  let transfer :=
    {| call := {| section := "balances"; method := "transfer";
                  args := [("dest", JStr "5Grw"); ("value", JNum 1)] |};
       signature := Some "5Grw" |} in
  let n := readyNode (Subscribed []) in
  method (call transfer) <> "addPrepaid" /\
  Plain.addPrepaidAmountRaw (H := plainCodec) transfer n
  = (Rejected (MkError "Not Valid Cid"), n) /\
  includes "addPrepaid" "Not Valid Cid" = false.
Proof.
  intros transfer n. split; [simpl; discriminate|]. split; reflexivity.
Qed.

(** C5.  On a ready node, a raw add-prepaid payload whose decoded
    [cid] argument is not a string is rejected with the invalid-cid
    error and the node, its send log included, is left as it was. *)
Theorem addPrepaidAmountRaw_invalid_cid :
  forall (codec : Codec) (n : Plain.Node) (extrinsic : Payload)
         (tx : Extrinsic),
    Plain.api_isReadyOrError n = Fulfilled () ->
    api_tx extrinsic = inr tx ->
    typeof (field "cid" (args (call tx))) <> "string" ->
    Plain.addPrepaidAmountRaw extrinsic n
    = (Rejected (MkError "Not Valid Cid"), n).
Proof.
  intros codec n extrinsic tx Hready Htx Hcid.
  rewrite (addPrepaidAmountRaw_unfold n extrinsic tx Hready Htx).
  apply String.eqb_neq in Hcid. simpl. by rewrite Hcid.
Qed.

(** The scenario of the specification: the [cid] argument is the
    number 42. *)
Lemma addPrepaidAmountRaw_invalid_cid_witness :
  let tx := {| call := {| section := "market"; method := "addPrepaid";
                          args := [("cid", JNum 42); ("amount", JNum 10)] |};
               signature := None |} in
  let n := readyNode (Subscribed []) in
  let out := Plain.addPrepaidAmountRaw (H := plainCodec) tx n in
  fst out = Rejected (MkError "Not Valid Cid") /\ Plain.sent (snd out) = [].
Proof.
  intros tx n out.
  assert (out = (Rejected (MkError "Not Valid Cid"), n)) as Hout.
  { refine (addPrepaidAmountRaw_invalid_cid plainCodec n tx tx _ _ _).
    - reflexivity.
    - reflexivity.
    - simpl. discriminate. }
  rewrite Hout. split; reflexivity.
Defined.

(** ** The place-order builder *)

Lemma built_payload `{Codec} (entry : Entry.t) :
  RoundTrip _ ->
  PlaceOrderPayload entry
    (toHex (market_placeStorageOrder (Entry.cid entry)
              (default 0 (Entry.size entry)) (default 0 (Entry.tips entry))
              (if String.eqb (Entry.type entry) "directory"
               then "folder" else ""))).
Proof.
  intros Hrt. eexists. split; [apply Hrt|]. split; [reflexivity|].
  simpl. destruct (String.eqb_spec (Entry.type entry) "directory") as [He | He].
  - split; [done | by intros Hne].
  - split; [|done]. split; [discriminate | done].
Qed.

(** C8.  With a codec that decodes what it encodes, the place-order
    builder of part_000 on a ready node, and that of part_001 whenever
    its readiness check succeeds, returns a payload that decodes to a
    call named [placeStorageOrder] whose memo argument is ["folder"]
    if and only if the entry type is [directory], and the empty string
    otherwise; this for every identifier, type, size and tips, given
    or omitted. *)
Theorem getPlaceStorageOrderRaw_call_and_memo :
  forall (codec : Codec) (entry : Entry.t),
    RoundTrip codec ->
    (forall n : Plain.Node,
        Plain.api_isReadyOrError n = Fulfilled () ->
        exists ex,
          Plain.getPlaceStorageOrderRaw entry n = (Fulfilled ex, n) /\
          PlaceOrderPayload entry ex) /\
    (forall s s' : Idle.State,
        Idle.isReadyOrError s = (Fulfilled (), s') ->
        exists ex,
          Idle.getPlaceStorageOrderRaw entry s = (Fulfilled ex, s') /\
          PlaceOrderPayload entry ex).
Proof.
  intros codec entry Hrt. split.
  - intros n Hready. eexists. split.
    + unfold Plain.getPlaceStorageOrderRaw, await, Plain.isReadyOrError.
      rewrite Hready. reflexivity.
    + by apply built_payload.
  - intros s s' Hready. eexists. split.
    + unfold Idle.getPlaceStorageOrderRaw, await at 1.
      rewrite Hready. reflexivity.
    + by apply built_payload.
Qed.

Lemma getPlaceStorageOrderRaw_call_and_memo_witness :
  let entry := {| Entry.cid := "bafy123"; Entry.type := "directory";
                  Entry.size := None; Entry.tips := None |} in
  exists ex,
    Plain.getPlaceStorageOrderRaw (H := plainCodec) entry
      (readyNode (Subscribed []))
    = (Fulfilled ex, readyNode (Subscribed [])) /\
    PlaceOrderPayload (H := plainCodec) entry ex.
Proof.
  intros entry.
  refine (proj1 (getPlaceStorageOrderRaw_call_and_memo plainCodec entry _)
            (readyNode (Subscribed [])) _).
  - intros tx. reflexivity.
  - reflexivity.
Defined.

(** ** The order-status guard of part_002 *)

(** C10.  On a ready node, [placeStorageOrder] of part_002 first
    queries the order status of the entry's identifier.  If an order
    is stored, the promise is rejected with "File has already been
    stored" and the query is the only call made on the API: nothing is
    built, signed or broadcast.  If none is stored, the call is built,
    then signed and sent, and the promise is the one of that
    submission. *)
Theorem placeStorageOrder_guarded :
  forall (CID : Type) (toV1 : CID -> CID) (toString : CID -> string)
         (n : Guarded.Node) (krp : string) (entry : Guarded.Entry)
         (tips : option Z),
    Guarded.api_isReadyOrError n = Fulfilled () ->
    let fileCid := toString (toV1 (Guarded.cid entry)) in
    let out := Guarded.placeStorageOrder toV1 toString krp entry tips n in
    (Guarded.filesV2 n !! fileCid <> None ->
     fst out = Rejected (MkError "File has already been stored") /\
     Guarded.ops (snd out) = Guarded.ops n ++ [Guarded.Query fileCid]) /\
    (Guarded.filesV2 n !! fileCid = None ->
     let tx := market_placeStorageOrder fileCid (Guarded.size entry)
                 (default 0 tips)
                 (if String.eqb (Guarded.type entry) "directory"
                  then "folder" else "") in
     fst out = deliver onPlaceStorageOrder
                 (Guarded.chain n (signAsync krp tx)) Pending /\
     Guarded.ops (snd out)
     = Guarded.ops n ++ [Guarded.Query fileCid; Guarded.Build tx;
                         Guarded.SignAndSend krp tx]).
Proof.
  intros CID toV1 toString n krp entry tips Hready fileCid out.
  subst out. unfold Guarded.placeStorageOrder, Guarded.getOrderStatus,
    await, Guarded.apiReady.
  rewrite Hready. simpl. fold fileCid.
  split.
  - intros Hstored.
    by destruct (Guarded.filesV2 n !! fileCid) as [st|].
  - intros Hnone. rewrite Hnone. simpl.
    split; [reflexivity|]. by rewrite <- !app_assoc.
Qed.

Lemma placeStorageOrder_guarded_witness :
  let st := {| file_size := "1024"; spower := "0"; expired_at := "100";
               calculated_at := "10"; amount := "5"; prepaid := "0";
               reported_replica_count := "0"; remaining_paid_count := "1";
               replicas := ∅ |} in
  let n := {| Guarded.api_isReadyOrError := Fulfilled ();
              Guarded.filesV2 := {[ "v1:bafy123" := st ]};
              Guarded.chain := fun _ => Subscribed [];
              Guarded.ops := [] |} in
  let entry := {| Guarded.cid := "bafy123"; Guarded.size := 1024;
                  Guarded.type := "file" |} in
  let out := Guarded.placeStorageOrder (fun c => String.append "v1:" c)
               (fun c => c) "krp" entry None n in
  fst out = Rejected (MkError "File has already been stored") /\
  Guarded.ops (snd out) = [Guarded.Query "v1:bafy123"].
Proof.
  intros st n entry out.
  refine (proj1 (placeStorageOrder_guarded string (fun c => String.append "v1:" c)
                   (fun c => c) n "krp" entry None _) _).
  - reflexivity.
  - vm_compute. discriminate.
Defined.

(** ** The idle countdown of part_001 *)

Lemma lookup_new_api (l : list Idle.Api) (a : Idle.Api) :
  (l ++ [a]) !! length l = Some a.
Proof. by rewrite lookup_app_r, Nat.sub_diag by lia. Qed.

Lemma lookup_new_api_alter (f : Idle.Api -> Idle.Api) (i : nat)
    (l : list Idle.Api) (a : Idle.Api) :
  (alter f i l ++ [a]) !! length l = Some a.
Proof.
  rewrite lookup_app_r by (rewrite length_alter; lia).
  by rewrite length_alter, Nat.sub_diag.
Qed.

Lemma insert_new_api_alter (f : Idle.Api -> Idle.Api) (i : nat)
    (l : list Idle.Api) (a b : Idle.Api) :
  <[length l := b]> (alter f i l ++ [a]) = alter f i l ++ [b].
Proof.
  replace (length l) with (length (alter f i l) + 0)%nat
    by (rewrite length_alter; lia).
  by rewrite insert_app_r.
Qed.

Lemma alter_ge (f : Idle.Api -> Idle.Api) (i : nat) (l : list Idle.Api) :
  (length l <= i)%nat -> alter f i l = l.
Proof.
  intros Hge. apply list_eq. intros j. rewrite list_lookup_alter.
  destruct (decide (i = j)) as [<-|]; [|done].
  by rewrite lookup_ge_None_2.
Qed.

(** The transports as [connect] leaves them: the one replaced left to
    itself, the new one appended. *)
Lemma connect_apis s :
  alter (Idle.settleApi (Idle.endpointUp s)) (Idle.api s)
    (Idle.apis s ++ [{| Idle.api_isConnected := false;
                        Idle.api_isReadyOrError := Pending;
                        Idle.api_autoConnect := true |}])
  = alter (Idle.settleApi (Idle.endpointUp s)) (Idle.api s) (Idle.apis s)
    ++ [if decide (Idle.api s = length (Idle.apis s))
        then Idle.settleApi (Idle.endpointUp s)
               {| Idle.api_isConnected := false;
                  Idle.api_isReadyOrError := Pending;
                  Idle.api_autoConnect := true |}
        else {| Idle.api_isConnected := false;
                Idle.api_isReadyOrError := Pending;
                Idle.api_autoConnect := true |}].
Proof.
  destruct (decide (Idle.api s < length (Idle.apis s))%nat) as [Hlt|Hge].
  - rewrite alter_app_l by done.
    destruct (decide (Idle.api s = length (Idle.apis s))); [lia | done].
  - rewrite alter_app_r_alt by lia.
    rewrite (alter_ge _ _ (Idle.apis s)) by lia.
    destruct (decide (Idle.api s = length (Idle.apis s))) as [->|Hne].
    + by rewrite Nat.sub_diag.
    + destruct (Idle.api s - length (Idle.apis s))%nat eqn:Hk; [lia | done].
Qed.

Lemma connect_up s :
  Idle.endpointUp s = true ->
  Idle.connect s =
    (Fulfilled (),
     {| Idle.endpointUp := Idle.endpointUp s; Idle.now := Idle.now s;
        Idle.apis := alter (Idle.settleApi true) (Idle.api s) (Idle.apis s)
                     ++ [{| Idle.api_isConnected := true;
                            Idle.api_isReadyOrError := Fulfilled ();
                            Idle.api_autoConnect := true |}];
        Idle.timers := Idle.timers s; Idle.nextTimer := Idle.nextTimer s;
        Idle.api := length (Idle.apis s); Idle.net := Idle.net s;
        Idle.countDown := Idle.countDown s |}).
Proof.
  intros Hup. unfold Idle.connect, Idle.newApiPromise, Idle.awaitReady,
    Idle.withApis; simpl.
  rewrite connect_apis, lookup_new_api_alter, Hup.
  destruct (decide (Idle.api s = length (Idle.apis s))); simpl; [done|].
  by rewrite insert_new_api_alter.
Qed.

Lemma connect_down_state s :
  Idle.endpointUp s = false ->
  Idle.connect s =
    (Rejected Idle.connectionError,
     {| Idle.endpointUp := Idle.endpointUp s; Idle.now := Idle.now s;
        Idle.apis := alter (Idle.settleApi false) (Idle.api s) (Idle.apis s)
                     ++ [{| Idle.api_isConnected := false;
                            Idle.api_isReadyOrError
                              := Rejected Idle.connectionError;
                            Idle.api_autoConnect := true |}];
        Idle.timers := Idle.timers s; Idle.nextTimer := Idle.nextTimer s;
        Idle.api := length (Idle.apis s); Idle.net := Idle.net s;
        Idle.countDown := Idle.countDown s |}).
Proof.
  intros Hup. unfold Idle.connect, Idle.newApiPromise, Idle.awaitReady,
    Idle.withApis; simpl.
  rewrite connect_apis, lookup_new_api_alter, Hup.
  destruct (decide (Idle.api s = length (Idle.apis s))); simpl; [done|].
  by rewrite insert_new_api_alter.
Qed.

Lemma connect_down s :
  Idle.endpointUp s = false ->
  fst (Idle.connect s) = Rejected Idle.connectionError.
Proof. intros Hup. by rewrite connect_down_state. Qed.

(** A readiness check on a manager that is not connected, with the
    endpoint up, connects a new transport and arms the countdown. *)
Lemma isReadyOrError_reconnects s :
  Idle.isConnected s = false ->
  Idle.endpointUp s = true ->
  exists s', Idle.isReadyOrError s = (Fulfilled (), s') /\
             Idle.isConnected s' = true.
Proof.
  intros Hdis Hup. unfold Idle.isReadyOrError, await.
  rewrite Hdis. simpl. rewrite connect_up by done.
  unfold Idle.awaitReady at 1. simpl. rewrite lookup_new_api_alter. simpl.
  eexists. split; [reflexivity|].
  unfold Idle.isConnected. simpl. by rewrite lookup_new_api_alter.
Qed.

(** A readiness check that succeeds leaves the manager connected, at
    the same time, with its countdown due [countDownSec] seconds
    later. *)
Lemma isReadyOrError_success s s1 :
  Idle.isReadyOrError s = (Fulfilled (), s1) ->
  Idle.isConnected s1 = true /\
  Idle.now s1 = Idle.now s /\
  Idle.timers s1 !! Idle.countDown s1
  = Some (Idle.now s + Idle.countDownSec * 1000).
Proof.
  unfold Idle.isReadyOrError, await.
  destruct (Idle.isConnected s) eqn:Hc; simpl.
  - unfold Idle.awaitReady. unfold Idle.isConnected in Hc.
    destruct (Idle.apis s !! Idle.api s) as [a|] eqn:Ha; [|done].
    destruct (Idle.api_isReadyOrError a) eqn:Hr.
    + destruct (Idle.api_autoConnect a); [|done].
      destruct (Idle.endpointUp s); simpl; [|done].
      intros [= <-]. simpl. split; [|split; [done|]].
      * unfold Idle.isConnected; simpl.
        rewrite list_lookup_insert_eq; [done|]. by eapply lookup_lt_Some.
      * by rewrite lookup_insert_eq.
    + intros [= <-]. simpl. split; [|split; [done|]].
      * unfold Idle.isConnected; simpl. by rewrite Ha.
      * by rewrite lookup_insert_eq.
    + done.
  - destruct (Idle.endpointUp s) eqn:Hup.
    + rewrite connect_up by done.
      unfold Idle.awaitReady at 1. simpl. rewrite lookup_new_api_alter. simpl.
      intros [= <-]. simpl. split; [|split; [done|]].
      * unfold Idle.isConnected; simpl. by rewrite lookup_new_api_alter.
      * by rewrite lookup_insert_eq.
    + pose proof (connect_down s Hup) as Hd.
      destruct (Idle.connect s) as [p s']. simpl in Hd. subst p. done.
Qed.

Lemma fire_disconnects s id : Idle.isConnected (Idle.fire s id) = false.
Proof.
  unfold Idle.fire, Idle.disconnect, Idle.apiDisconnect, Idle.isConnected.
  simpl. destruct (Idle.apis s !! Idle.api s) as [a|] eqn:Ha; simpl.
  - rewrite list_lookup_insert_eq; [done|]. by eapply lookup_lt_Some.
  - by rewrite Ha.
Qed.

Lemma fire_endpoint s id :
  Idle.endpointUp (Idle.fire s id) = Idle.endpointUp s.
Proof.
  unfold Idle.fire, Idle.disconnect, Idle.apiDisconnect. simpl.
  by destruct (Idle.apis s !! Idle.api s).
Qed.

Lemma fired_disconnects ids s :
  ids <> [] -> Idle.isConnected (foldl Idle.fire s ids) = false.
Proof.
  destruct ids as [|id ids _] using rev_ind; [done|].
  intros _. rewrite foldl_app. simpl. apply fire_disconnects.
Qed.

Lemma fired_endpoint ids s :
  Idle.endpointUp (foldl Idle.fire s ids) = Idle.endpointUp s.
Proof.
  revert s. induction ids as [|id ids IH]; intros s; [done|].
  simpl. by rewrite IH, fire_endpoint.
Qed.

(** While time passes, what the transports do by themselves leaves
    the clock, the timers and the fields of the manager alone, and
    leaves a connected transport as it is. *)
Lemma settle_frame s :
  Idle.timers (Idle.settle s) = Idle.timers s /\
  Idle.countDown (Idle.settle s) = Idle.countDown s /\
  Idle.now (Idle.settle s) = Idle.now s /\
  Idle.api (Idle.settle s) = Idle.api s /\
  Idle.endpointUp (Idle.settle s) = Idle.endpointUp s /\
  length (Idle.apis (Idle.settle s)) = length (Idle.apis s).
Proof. unfold Idle.settle, Idle.withApis. simpl. by rewrite length_map. Qed.

Lemma settle_connected s h a :
  Idle.apis s !! h = Some a ->
  Idle.api_isConnected a = true ->
  Idle.apis (Idle.settle s) !! h = Some a.
Proof.
  intros Ha Hc. unfold Idle.settle, Idle.withApis. simpl.
  rewrite list_lookup_fmap, Ha. simpl. unfold Idle.settleApi.
  by rewrite Hc, andb_false_r.
Qed.

Lemma settle_isConnected s :
  Idle.isConnected s = true -> Idle.isConnected (Idle.settle s) = true.
Proof.
  unfold Idle.isConnected at 1.
  destruct (Idle.apis s !! Idle.api s) as [a|] eqn:Ha; [|done].
  intros Hc. unfold Idle.isConnected.
  destruct (settle_frame s) as (_ & _ & _ & -> & _).
  by rewrite (settle_connected s _ a Ha Hc).
Qed.

(** The state in which the countdown runs when [dt] passes. *)
Lemma elapse_unfold dt s :
  Idle.elapse dt s = Idle.countdown dt (if 0 <? dt then Idle.settle s else s).
Proof. reflexivity. Qed.

Lemma passing_frame dt s :
  let s' := if 0 <? dt then Idle.settle s else s in
  Idle.timers s' = Idle.timers s /\
  Idle.countDown s' = Idle.countDown s /\
  Idle.now s' = Idle.now s /\
  Idle.endpointUp s' = Idle.endpointUp s.
Proof.
  simpl. destruct (0 <? dt); [|done].
  destruct (settle_frame s) as (? & ? & ? & ? & ? & ?). done.
Qed.

Lemma countdown_endpoint dt s :
  Idle.endpointUp (Idle.countdown dt s) = Idle.endpointUp s.
Proof. unfold Idle.countdown. by rewrite fired_endpoint. Qed.

Lemma elapse_endpoint dt s :
  Idle.endpointUp (Idle.elapse dt s) = Idle.endpointUp s.
Proof.
  rewrite elapse_unfold, countdown_endpoint.
  by destruct (passing_frame dt s) as (_ & _ & _ & ?).
Qed.

(** A timer that is due by the end of the elapsed time fires. *)
Lemma countdown_due dt s id due :
  Idle.timers s !! id = Some due ->
  due <= Idle.now s + dt ->
  Idle.isConnected (Idle.countdown dt s) = false.
Proof.
  intros Hid Hdue. unfold Idle.countdown. apply fired_disconnects.
  unfold Idle.dueTimers. simpl.
  assert ((id, due) ∈ map_to_list
            (filter (fun kv => kv.2 <= Idle.now s + dt) (Idle.timers s))) as Hin.
  { apply elem_of_map_to_list. by apply map_lookup_filter_Some. }
  intros Hnil. apply (f_equal length) in Hnil.
  rewrite length_fmap in Hnil.
  destruct (map_to_list _) as [|x l]; [by apply elem_of_nil in Hin | done].
Qed.

Lemma elapse_due dt s id due :
  Idle.timers s !! id = Some due ->
  due <= Idle.now s + dt ->
  Idle.isConnected (Idle.elapse dt s) = false.
Proof.
  intros Hid Hdue. rewrite elapse_unfold.
  destruct (passing_frame dt s) as (Ht & _ & Hn & _).
  eapply countdown_due; [by rewrite Ht | by rewrite Hn].
Qed.

(** C6.  In the idle-timeout variant, after a readiness check that
    succeeds the manager is connected; once [countDownSec] seconds or
    more have passed with no call on the manager it is not connected
    any more, the countdown having run [disconnect]; and the next
    readiness check, made while the endpoint is up, succeeds and
    leaves the manager connected again. *)
Theorem idle_disconnect_then_reconnect :
  forall (s s1 : Idle.State) (dt : Z),
    Idle.isReadyOrError s = (Fulfilled (), s1) ->
    Idle.countDownSec * 1000 <= dt ->
    let s2 := Idle.elapse dt s1 in
    Idle.isConnected s1 = true /\
    Idle.isConnected s2 = false /\
    exists s3,
      Idle.isReadyOrError (Idle.setEndpoint true s2) = (Fulfilled (), s3) /\
      Idle.isConnected s3 = true.
Proof.
  intros s s1 dt Hready Hdt s2.
  apply isReadyOrError_success in Hready as (Hc & Hnow & Htimer).
  assert (Idle.isConnected s2 = false) as Hdis.
  { subst s2. eapply elapse_due; [exact Htimer|]. lia. }
  split; [done|]. split; [done|].
  by apply isReadyOrError_reconnects.
Qed.

(** A manager built at time 0, checked at once, left alone for a
    minute, then checked again. *)
Lemma idle_disconnect_then_reconnect_witness :
  let s := Idle.constructor None true 0 in
  let s1 := snd (Idle.isReadyOrError s) in
  let s2 := Idle.elapse 60000 s1 in
  Idle.isConnected s1 = true /\
  Idle.isConnected s2 = false /\
  exists s3,
    Idle.isReadyOrError (Idle.setEndpoint true s2) = (Fulfilled (), s3) /\
    Idle.isConnected s3 = true.
Proof.
  intros s s1 s2.
  refine (idle_disconnect_then_reconnect s s1 60000 _ _).
  - reflexivity.
  - unfold Idle.countDownSec. lia.
Defined.

(** ** The countdown invariant *)

Lemma constructor_one_countdown net up t :
  OneCountdown (Idle.constructor net up t).
Proof.
  unfold OneCountdown, Idle.constructor, Idle.setCountDown. simpl.
  rewrite dom_insert_L, dom_empty_L. set_solver.
Qed.

(** Awaiting readiness touches the transports only. *)
Lemma awaitReady_frame h s :
  Idle.timers (snd (Idle.awaitReady h s)) = Idle.timers s /\
  Idle.countDown (snd (Idle.awaitReady h s)) = Idle.countDown s /\
  Idle.now (snd (Idle.awaitReady h s)) = Idle.now s.
Proof.
  unfold Idle.awaitReady.
  destruct (Idle.apis s !! h) as [a|]; [|done].
  destruct (Idle.api_isReadyOrError a); [|done|done].
  destruct (Idle.api_autoConnect a); [|done].
  by destruct (Idle.endpointUp s).
Qed.

Lemma connect_frame s :
  Idle.timers (snd (Idle.connect s)) = Idle.timers s /\
  Idle.countDown (snd (Idle.connect s)) = Idle.countDown s /\
  Idle.now (snd (Idle.connect s)) = Idle.now s.
Proof.
  unfold Idle.connect. simpl.
  match goal with
  | |- context [Idle.awaitReady ?h ?s2] =>
      pose proof (awaitReady_frame h s2) as Hframe
  end.
  exact Hframe.
Qed.

(** A readiness check, successful or not, keeps the invariant; a
    successful one leaves exactly the countdown it has just set. *)
Lemma isReadyOrError_one_countdown s :
  OneCountdown s ->
  OneCountdown (snd (Idle.isReadyOrError s)) /\
  (fst (Idle.isReadyOrError s) = Fulfilled () ->
   Idle.timers (snd (Idle.isReadyOrError s))
   = {[ Idle.countDown (snd (Idle.isReadyOrError s))
        := Idle.now s + Idle.countDownSec * 1000 ]}).
Proof.
  intros Hone. unfold Idle.isReadyOrError, await.
  set (first := if negb (Idle.isConnected s) then Idle.connect s
                else (Fulfilled (), s)).
  assert (Idle.timers (snd first) = Idle.timers s /\
          Idle.countDown (snd first) = Idle.countDown s /\
          Idle.now (snd first) = Idle.now s) as (Ht1 & Hc1 & Hn1).
  { subst first. destruct (negb (Idle.isConnected s)); [|done].
    apply connect_frame. }
  destruct first as [[|[]|e] s1]; simpl in *.
  - unfold OneCountdown. rewrite Ht1, Hc1. done.
  - destruct (awaitReady_frame (Idle.api s1) s1) as (Ht2 & Hc2 & Hn2).
    destruct (Idle.awaitReady (Idle.api s1) s1) as [[|[]|e] s2]; simpl in *.
    + unfold OneCountdown. rewrite Ht2, Hc2, Ht1, Hc1. done.
    + assert (delete (Idle.countDown s2) (Idle.timers s2) = ∅) as Hempty.
      { apply map_empty. intros id. apply not_elem_of_dom.
        rewrite dom_delete_L, Ht2, Hc2, Ht1, Hc1.
        intros [Hin Hnot]%elem_of_difference. by apply Hnot, Hone. }
      split.
      * unfold OneCountdown. simpl. rewrite Hempty.
        by rewrite dom_insert_L, dom_empty_L, union_empty_r_L.
      * intros _. rewrite Hempty, Hn2, Hn1. by rewrite insert_empty.
    + unfold OneCountdown. rewrite Ht2, Hc2, Ht1, Hc1. done.
  - unfold OneCountdown. rewrite Ht1, Hc1. done.
Qed.

Lemma fired_timers ids s :
  dom (Idle.timers (foldl Idle.fire s ids)) ⊆ dom (Idle.timers s) /\
  Idle.countDown (foldl Idle.fire s ids) = Idle.countDown s.
Proof.
  revert s. induction ids as [|id ids IH]; intros s; [done|].
  simpl. destruct (IH (Idle.fire s id)) as [Hd Hc].
  assert (Idle.timers (Idle.fire s id) = delete id (Idle.timers s) /\
          Idle.countDown (Idle.fire s id) = Idle.countDown s) as [Ht Hc'].
  { unfold Idle.fire, Idle.disconnect, Idle.apiDisconnect. simpl.
    by destruct (Idle.apis s !! Idle.api s). }
  rewrite Ht, dom_delete_L in Hd. rewrite Hc, Hc'. split; [|done].
  etrans; [exact Hd|]. by apply subseteq_difference_l.
Qed.

Lemma countdown_one_countdown dt s :
  OneCountdown s -> OneCountdown (Idle.countdown dt s).
Proof.
  unfold OneCountdown, Idle.countdown. intros Hone.
  match goal with
  | |- context [foldl Idle.fire ?s0 ?ids] =>
      destruct (fired_timers ids s0) as [Hd Hc]
  end.
  rewrite Hc. simpl in *. set_solver.
Qed.

Lemma elapse_one_countdown dt s :
  OneCountdown s -> OneCountdown (Idle.elapse dt s).
Proof.
  intros Hone. rewrite elapse_unfold. apply countdown_one_countdown.
  destruct (passing_frame dt s) as (Ht & Hc & _).
  unfold OneCountdown. by rewrite Ht, Hc.
Qed.

(** Before the countdown is due nothing fires. *)
Lemma countdown_before_due dt s id due :
  Idle.timers s = {[ id := due ]} ->
  Idle.now s + dt < due ->
  Idle.isConnected (Idle.countdown dt s) = Idle.isConnected s.
Proof.
  intros Ht Hdue. unfold Idle.countdown, Idle.dueTimers. simpl.
  rewrite Ht, map_filter_singleton_False by (simpl; lia).
  by rewrite map_to_list_empty.
Qed.

Lemma elapse_before_due dt s id due :
  Idle.timers s = {[ id := due ]} ->
  Idle.now s + dt < due ->
  Idle.isConnected s = true ->
  Idle.isConnected (Idle.elapse dt s) = true.
Proof.
  intros Ht Hdue Hc. rewrite elapse_unfold.
  destruct (passing_frame dt s) as (Ht' & _ & Hn & _).
  rewrite (countdown_before_due dt _ id due); [| by rewrite Ht', Ht | by rewrite Hn].
  destruct (0 <? dt); [by apply settle_isConnected | done].
Qed.

(** Within the window the manager stays connected: the disconnection
    of the idle countdown comes with the end of the window, not
    before. *)
Lemma idle_window_stays_connected s s1 dt :
  OneCountdown s ->
  Idle.isReadyOrError s = (Fulfilled (), s1) ->
  dt < Idle.countDownSec * 1000 ->
  Idle.isConnected (Idle.elapse dt s1) = true.
Proof.
  intros Hone Hready Hdt.
  destruct (isReadyOrError_one_countdown s Hone) as [_ Hsingle].
  destruct (isReadyOrError_success s s1 Hready) as (Hc & Hnow & _).
  rewrite Hready in Hsingle. simpl in Hsingle.
  apply (elapse_before_due dt s1 _ _ (Hsingle eq_refl)); [lia | done].
Qed.

(** ** What [connect] does to the transports *)

(** With the endpoint up, [connect] of the idle-timeout variant
    succeeds in any state and makes a newly constructed transport the
    one the manager holds, connected.  Nothing is closed: every
    transport that was connected before the call is connected after
    it. *)
Lemma connect_leaks s :
  Idle.endpointUp s = true ->
  fst (Idle.connect s) = Fulfilled () /\
  Idle.api (snd (Idle.connect s)) = length (Idle.apis s) /\
  Idle.isLive s (length (Idle.apis s)) = false /\
  Idle.isLive (snd (Idle.connect s)) (length (Idle.apis s)) = true /\
  forall h, Idle.isLive s h = true ->
            Idle.isLive (snd (Idle.connect s)) h = true.
Proof.
  intros Hup. rewrite connect_up by done. simpl.
  split; [done|]. split; [done|]. split; [|split].
  - unfold Idle.isLive. by rewrite lookup_ge_None_2.
  - unfold Idle.isLive. simpl. by rewrite lookup_new_api_alter.
  - intros h. unfold Idle.isLive. simpl.
    destruct (Idle.apis s !! h) as [a|] eqn:Ha; [|done].
    intros Hlive. pose proof (lookup_lt_Some _ _ _ Ha) as Hlt.
    rewrite lookup_app_l by (by rewrite length_alter).
    rewrite list_lookup_alter.
    destruct (decide (Idle.api s = h)) as [->|]; [|by rewrite Ha].
    rewrite Ha. simpl. unfold Idle.settleApi.
    by rewrite Hlive, andb_false_r.
Qed.

(** C9.  The claim fails on the idle-timeout variant, where [connect]
    forgets to close the transport it replaces.  A manager is
    constructed with the endpoint up and checked once: transport 0,
    built by the constructor, and transport 1, built by the check,
    are connected.  A call of [connect] succeeds and leaves three
    connected transports, a second call four, and the state after two
    calls is not the state after one.  The idle countdown, meant to
    release the connection, then closes only the transport held and
    leaves the three replaced ones connected.  Called right after
    the constructor, while transport 0 is still connecting, [connect]
    leaves two connected transports as well.  In the layered variant
    [connect] forwards to the transport held: whatever the library
    does there, two calls construct nothing and leave the manager on
    the transport of its constructor. *)
Theorem connect_not_idempotent :
  let s := snd (Idle.isReadyOrError (Idle.constructor None true 0)) in
  let once := snd (Idle.connect s) in
  let twice := snd (Idle.connect once) in
  Idle.isConnected s = true /\
  Idle.liveTransports s = [0%nat; 1%nat] /\
  fst (Idle.connect s) = Fulfilled () /\
  fst (Idle.connect once) = Fulfilled () /\
  Idle.liveTransports once = [0%nat; 1%nat; 2%nat] /\
  Idle.liveTransports twice = [0%nat; 1%nat; 2%nat; 3%nat] /\
  Idle.api once = 2%nat /\
  Idle.api twice = 3%nat /\
  twice <> once /\
  Idle.liveTransports (Idle.elapse (Idle.countDownSec * 1000) twice)
  = [0%nat; 1%nat; 2%nat] /\
  Idle.liveTransports (snd (Idle.connect (Idle.constructor None true 0)))
  = [0%nat; 1%nat] /\
  (forall api_connect : bool -> Idle.Api -> Promise unit * Idle.Api,
     let m := Held.constructor None true in
     let m2 := snd (Held.connect api_connect
                      (snd (Held.connect api_connect m))) in
     length (Held.apis m2) = 1%nat /\ Held.api m2 = 0%nat).
Proof.
  intros s once twice.
  repeat split; try reflexivity.
  - intros Heq. apply (f_equal Idle.api) in Heq. vm_compute in Heq.
    discriminate.
  - vm_compute.
    destruct (api_connect true _) as [p a]. simpl.
    by destruct (api_connect true a).
  - vm_compute.
    destruct (api_connect true _) as [p a]. simpl.
    by destruct (api_connect true a).
Qed.

(** ** The shared-instance registry *)

Section RegistryFacts.
Variable isReadyOrError : list Registry.Event -> nat -> Promise unit.

Abbreviation validReady := (Registry.validReady isReadyOrError).
Abbreviation useCrust := (Registry.useCrust isReadyOrError).

(** Whatever [validReady] returns is the memoized instance, and its
    readiness check is the last thing that happened.  It is either
    the instance memoized at the start or one constructed during the
    call, in which case that successful check follows its
    construction directly. *)
Lemma validReady_returns fuel :
  forall s r s',
    validReady fuel s = (Fulfilled r, s') ->
    Registry.crust s' = Some r /\
    ((Registry.crust s = Some r /\
      Registry.trace s'
      = Registry.trace s ++ [Registry.Checked r (Fulfilled ())]) \/
     ((Registry.made s <= r)%nat /\
      exists t,
        Registry.trace s'
        = Registry.trace s ++ t ++ [Registry.Constructed r;
                                    Registry.Checked r (Fulfilled ())])).
Proof.
  induction fuel as [|fuel IH]; intros s r s' Hrun; [done|].
  simpl in Hrun. destruct (Registry.crust s) as [j|] eqn:Hj.
  - destruct (isReadyOrError (Registry.trace s) j) as [|[]|e] eqn:Ho.
    + done.
    + inversion Hrun; subst. simpl. split; [done|]. by left.
    + apply IH in Hrun as [Hc Hcases]. split; [done|]. right.
      unfold Registry.assignNew in Hcases; simpl in Hcases.
      destruct Hcases as [[[= <-] Ht] | [Hle (t & Ht)]].
      * split; [done|]. exists [Registry.Checked j (Rejected e)].
        rewrite Ht. by rewrite <- !app_assoc.
      * split; [lia|].
        exists (Registry.Checked j (Rejected e)
                  :: Registry.Constructed (Registry.made s) :: t).
        rewrite Ht. by rewrite <- !app_assoc.
  - apply IH in Hrun as [Hc Hcases]. split; [done|]. right.
    unfold Registry.assignNew in Hcases; simpl in Hcases.
    destruct Hcases as [[[= <-] Ht] | [Hle (t & Ht)]].
    + split; [done|]. exists []. rewrite Ht. by rewrite <- !app_assoc.
    + split; [lia|]. exists (Registry.Constructed (Registry.made s) :: t).
      rewrite Ht. by rewrite <- !app_assoc.
Qed.

(** Accesses keep the memoized reference among the allocated ones,
    from the empty registry on. *)
Lemma assignNew_memoized s : Memoized (Registry.assignNew s).
Proof.
  unfold Memoized, Registry.assignNew. simpl. intros r [= <-]. lia.
Qed.

Lemma validReady_memoized fuel :
  forall s, Memoized s -> Memoized (snd (validReady fuel s)).
Proof.
  induction fuel as [|fuel IH]; intros s Hs; [done|].
  simpl. destruct (Registry.crust s) as [j|] eqn:Hj.
  - destruct (isReadyOrError (Registry.trace s) j) as [|[]|e]; simpl.
    + intros r [= <-]. by apply Hs.
    + intros r [= <-]. by apply Hs.
    + apply IH, assignNew_memoized.
  - apply IH, assignNew_memoized.
Qed.

Lemma useCrust_memoized fuel s :
  Memoized s -> Memoized (snd (useCrust fuel s)).
Proof.
  intros Hs. unfold Registry.useCrust.
  destruct (Registry.crust s); apply validReady_memoized;
    [done | apply assignNew_memoized].
Qed.

Lemma emptyRegistry_memoized : Memoized emptyRegistry.
Proof. intros r Hr. discriminate. Qed.

(** [validReady] only adds to the trace, and what it adds starts with
    the readiness check of the memoized instance. *)
Lemma validReady_extends fuel :
  forall s, exists t,
    Registry.trace (snd (validReady fuel s)) = Registry.trace s ++ t.
Proof.
  induction fuel as [|fuel IH]; intros s.
  - exists []. simpl. by rewrite app_nil_r.
  - simpl. destruct (Registry.crust s) as [j|].
    + destruct (isReadyOrError (Registry.trace s) j) as [|[]|e] eqn:Ho; simpl.
      * by eexists.
      * by eexists.
      * destruct (IH (Registry.assignNew
                        {| Registry.crust := Some j;
                           Registry.made := Registry.made s;
                           Registry.trace := Registry.trace s
                             ++ [Registry.Checked j (Rejected e)] |}))
          as [t Ht].
        rewrite Ht. unfold Registry.assignNew. simpl.
        eexists. by rewrite <- !app_assoc.
    + destruct (IH (Registry.assignNew s)) as [t Ht].
      rewrite Ht. unfold Registry.assignNew. simpl.
      eexists. by rewrite <- !app_assoc.
Qed.

Lemma validReady_checks_first fuel s r :
  Registry.crust s = Some r ->
  exists t,
    Registry.trace (snd (validReady (S fuel) s))
    = Registry.trace s
      ++ Registry.Checked r (isReadyOrError (Registry.trace s) r) :: t.
Proof.
  intros Hc. simpl. rewrite Hc.
  destruct (isReadyOrError (Registry.trace s) r) as [|[]|e] eqn:Ho; simpl.
  - by exists [].
  - by exists [].
  - destruct (validReady_extends fuel
                (Registry.assignNew
                   {| Registry.crust := Some r;
                      Registry.made := Registry.made s;
                      Registry.trace := Registry.trace s
                        ++ [Registry.Checked r (Rejected e)] |}))
      as [t Ht].
    rewrite Ht. unfold Registry.assignNew. simpl.
    eexists. by rewrite <- !app_assoc.
Qed.

(** One turn of the retry loop. *)
Lemma validReady_rejected fuel s r e :
  Registry.crust s = Some r ->
  isReadyOrError (Registry.trace s) r = Rejected e ->
  validReady (S fuel) s
  = validReady fuel
      (Registry.assignNew
         {| Registry.crust := Registry.crust s;
            Registry.made := Registry.made s;
            Registry.trace := Registry.trace s
                              ++ [Registry.Checked r (Rejected e)] |}).
Proof. intros Hc He. simpl. by rewrite Hc, He. Qed.

(** If the instances allocated next keep rejecting until one that is
    ready, [validReady] reaches that one with one unit of fuel per
    check. *)
Lemma validReady_reaches k :
  forall s base,
    Registry.crust s = Some base ->
    Registry.made s = S base ->
    (forall j t, (j < k)%nat ->
                 exists e, isReadyOrError t (base + j)%nat = Rejected e) ->
    (forall t, isReadyOrError t (base + k)%nat = Fulfilled ()) ->
    exists s', validReady (S k) s = (Fulfilled (base + k)%nat, s').
Proof.
  induction k as [|k IH]; intros s base Hc Hm Hrej Hok.
  - simpl. rewrite Hc. rewrite Nat.add_0_r in Hok. rewrite Hok.
    rewrite Nat.add_0_r. by eexists.
  - destruct (Hrej 0%nat (Registry.trace s) ltac:(lia)) as [e He].
    rewrite Nat.add_0_r in He.
    rewrite (validReady_rejected (S k) s base e Hc He).
    replace (base + S k)%nat with (S base + k)%nat by lia.
    apply (IH _ (S base)).
    + unfold Registry.assignNew. simpl. by rewrite Hm.
    + unfold Registry.assignNew. simpl. by rewrite Hm.
    + intros j t Hj. replace (S base + j)%nat with (base + S j)%nat by lia.
      apply Hrej. lia.
    + intros t. replace (S base + k)%nat with (base + S k)%nat by lia.
      apply Hok.
Qed.

(** C7.  The memoized instance [old] was allocated earlier and its
    readiness check rejects at the next access.  Then that access
    goes on with an instance newly constructed through the factory,
    of a reference other than [old], and the first thing it does with
    it is to await its readiness check.  Whatever instance the access
    returns is not [old], is the one memoized afterwards, and was
    constructed during the access with its successful readiness check
    the last event before the return.  The access does return when
    the instances constructed next reject up to one that is ready. *)
Theorem registry_replaces_rejected_instance :
  forall (s : Registry.State) (old : nat) (e : Error),
    Registry.crust s = Some old ->
    (old < Registry.made s)%nat ->
    isReadyOrError (Registry.trace s) old = Rejected e ->
    let fresh := Registry.made s in
    let replaced :=
      {| Registry.crust := Some fresh;
         Registry.made := S fresh;
         Registry.trace := Registry.trace s
                           ++ [Registry.Checked old (Rejected e);
                               Registry.Constructed fresh] |} in
    fresh <> old /\
    (forall fuel, useCrust (S fuel) s = validReady fuel replaced) /\
    (forall fuel, exists t,
        Registry.trace (snd (useCrust (S (S fuel)) s))
        = Registry.trace s
          ++ [Registry.Checked old (Rejected e);
              Registry.Constructed fresh;
              Registry.Checked fresh
                (isReadyOrError (Registry.trace replaced) fresh)]
          ++ t) /\
    (forall fuel r s',
        useCrust fuel s = (Fulfilled r, s') ->
        r <> old /\
        Registry.crust s' = Some r /\
        exists t,
          Registry.trace s'
          = Registry.trace s
            ++ [Registry.Checked old (Rejected e); Registry.Constructed fresh]
            ++ t ++ [Registry.Checked r (Fulfilled ())] /\
          (t = [] /\ r = fresh \/
           exists t', t = t' ++ [Registry.Constructed r])) /\
    (forall k,
        (forall j t, (j < k)%nat ->
                     exists e', isReadyOrError t (fresh + j)%nat = Rejected e') ->
        (forall t, isReadyOrError t (fresh + k)%nat = Fulfilled ()) ->
        exists s', useCrust (S (S k)) s = (Fulfilled (fresh + k)%nat, s')).
Proof.
  intros s old e Hc Hold Hrej fresh replaced.
  assert (forall fuel, useCrust (S fuel) s = validReady fuel replaced) as Hstep.
  { intros fuel. unfold Registry.useCrust. rewrite Hc.
    rewrite (validReady_rejected fuel s old e Hc Hrej).
    unfold Registry.assignNew. simpl.
    subst replaced fresh. by rewrite <- app_assoc. }
  split; [subst fresh; lia|]. split; [done|]. split; [|split].
  - intros fuel. rewrite Hstep.
    destruct (validReady_checks_first fuel replaced fresh eq_refl) as [t Ht].
    exists t. rewrite Ht. subst replaced. simpl. by rewrite <- !app_assoc.
  - intros [|fuel] r s' Hrun.
    { unfold Registry.useCrust in Hrun. rewrite Hc in Hrun. done. }
    rewrite Hstep in Hrun.
    apply validReady_returns in Hrun as [Hcr Hcases]. simpl in Hcases.
    destruct Hcases as [[[= <-] Ht] | [Hle (t & Ht)]].
    + split; [subst fresh; lia|]. split; [done|].
      exists []. split; [|by left]. rewrite Ht. by rewrite <- !app_assoc.
    + split; [subst fresh; lia|]. split; [done|].
      exists (t ++ [Registry.Constructed r]). split; [|right; by exists t].
      rewrite Ht. by rewrite <- !app_assoc.
  - intros k Hk Hok. rewrite Hstep.
    by apply validReady_reaches.
Qed.

End RegistryFacts.

(** A memoized instance 0 that rejects, a replacement 1 that rejects
    too, and a second replacement 2 that is ready. *)
Lemma registry_replaces_rejected_instance_witness :
  let check := fun (_ : list Registry.Event) (r : nat) =>
                 if (r <? 2)%nat then Rejected (MkError "connection failed")
                 else Fulfilled () in
  let s := {| Registry.crust := Some 0%nat; Registry.made := 1%nat;
              Registry.trace := [Registry.Constructed 0%nat] |} in
  exists s', Registry.useCrust check 3 s = (Fulfilled 2%nat, s').
Proof.
  intros check s.
  refine (proj2 (proj2 (proj2 (proj2
            (registry_replaces_rejected_instance check s 0%nat
               (MkError "connection failed") _ _ _)))) 1%nat _ _).
  - reflexivity.
  - simpl. lia.
  - reflexivity.
  - intros j t Hj. exists (MkError "connection failed").
    assert (j = 0%nat) as -> by lia. reflexivity.
  - intros t. reflexivity.
Defined.

(* ================================================================== *)
(** * Part III: further properties of the code                         *)
(* ================================================================== *)

(** ** When a submission settles *)

Lemma scan_success h evs :
  forall cid0,
    (existsb (fun e => String.eqb (ev_method e) "ExtrinsicSuccess") evs = false ->
     snd (fold_left (scanEvent h) evs (cid0, Pending)) = Pending) /\
    (existsb (fun e => String.eqb (ev_method e) "ExtrinsicSuccess") evs = true ->
     exists c, snd (fold_left (scanEvent h) evs (cid0, Pending))
               = Fulfilled {| hash := JStr h; cid := c |}).
Proof.
  induction evs as [|ev evs IH]; intros cid0; simpl.
  - split; [done | discriminate].
  - unfold scanEvent at 2 4; simpl.
    destruct (String.eqb (ev_method ev) "ExtrinsicSuccess"); simpl.
    + split; [discriminate|]. intros _. eexists. by apply scan_settled.
    + apply IH.
Qed.

Lemma onPlaceStorageOrder_no_success u :
  hasSuccess u = false -> onPlaceStorageOrder u Pending = Pending.
Proof.
  intros Hu. unfold onPlaceStorageOrder. unfold hasSuccess in Hu.
  destruct (isInBlock u); [|done]. simpl in Hu.
  by apply (scan_success (txHash u) (events u) JUndefined).
Qed.

Lemma updates_no_success us :
  existsb hasSuccess us = false ->
  fold_left (fun q r => onPlaceStorageOrder r q) us Pending = Pending.
Proof.
  induction us as [|u us IH]; intros Hno; [done|].
  simpl in *. apply orb_false_iff in Hno as [Hu Hus].
  rewrite onPlaceStorageOrder_no_success by done. by apply IH.
Qed.

Lemma updates_some_success us :
  existsb hasSuccess us = true ->
  exists sr, fold_left (fun q r => onPlaceStorageOrder r q) us Pending
             = Fulfilled sr.
Proof.
  induction us as [|u us IH]; intros Hsome; [done|].
  simpl in *. destruct (hasSuccess u) eqn:Hu; simpl in Hsome.
  - unfold hasSuccess in Hu. apply andb_true_iff in Hu as [Hin Hes].
    destruct (proj2 (scan_success (txHash u) (events u) JUndefined) Hes)
      as [c Hc].
    unfold onPlaceStorageOrder at 2. rewrite Hin, Hc.
    eexists. apply updates_settled; [apply onPlaceStorageOrder_settled | done].
  - rewrite onPlaceStorageOrder_no_success by done. by apply IH.
Qed.

(** X1.  A place-order submission that was broadcast on the raw path
    is fulfilled exactly when some status update reports inclusion
    and carries an [ExtrinsicSuccess] event.  Otherwise the promise
    stays pending, whatever else the chain reports: it is never
    rejected once the send has succeeded. *)
Theorem placeStorageOrderRaw_settles_iff :
  forall (codec : Codec) (n : Plain.Node) (extrinsic : Payload)
         (tx : Extrinsic) (us : list SubmittableResult),
    Plain.api_isReadyOrError n = Fulfilled () ->
    api_tx extrinsic = inr tx ->
    method (call tx) = "placeStorageOrder" ->
    Plain.chain n tx = Subscribed us ->
    let p := fst (Plain.placeStorageOrderRaw extrinsic n) in
    (existsb hasSuccess us = true <-> exists sr, p = Fulfilled sr) /\
    (existsb hasSuccess us = false <-> p = Pending) /\
    (forall e, p <> Rejected e).
Proof.
  intros codec n extrinsic tx us Hready Htx Hm Hch p. subst p.
  rewrite (placeStorageOrderRaw_unfold n extrinsic tx Hready Htx), Hm.
  simpl. rewrite Hch. simpl.
  destruct (existsb hasSuccess us) eqn:Hex.
  - destruct (updates_some_success us Hex) as [sr Hsr]. rewrite Hsr.
    split; [|split]; [split; eauto | split; discriminate | discriminate].
  - rewrite (updates_no_success us Hex).
    split; [|split]; [|done|discriminate].
    split; [discriminate | by intros [sr ?]].
Qed.

(** An inclusion with [ExtrinsicFailed] only, then finality: the
    promise of the submission stays pending. *)
Lemma placeStorageOrderRaw_settles_iff_witness :
  let failed := {| status := InBlock "0xB10C";
                   events := [eventOf "ExtrinsicFailed" []];
                   txHash := "0x7A" |} in
  let final := {| status := Finalized "0xB10C"; events := events failed;
                  txHash := "0x7A" |} in
  fst (Plain.placeStorageOrderRaw (H := plainCodec)
         (market_placeStorageOrder "bafy123" 0 0 "")
         (readyNode (Subscribed [failed; final]))) = Pending.
Proof.
  intros failed final.
  refine (proj1 (proj1 (proj2 (placeStorageOrderRaw_settles_iff plainCodec
            (readyNode (Subscribed [failed; final]))
            (market_placeStorageOrder "bafy123" 0 0 "")
            (market_placeStorageOrder "bafy123" 0 0 "")
            [failed; final] _ _ _ _))) _); reflexivity.
Defined.

Lemma updates_without_success pre p :
  Forall (fun u => hasSuccess u = false) pre ->
  p = Pending ->
  fold_left (fun q r => onPlaceStorageOrder r q) pre p = Pending.
Proof.
  intros Hpre ->. apply updates_no_success.
  induction pre as [|u us IH]; [done|].
  inversion Hpre; subst. simpl. rewrite IH by done. by rewrite orb_false_r.
Qed.

(** X2.  When the first [ExtrinsicSuccess] of a place-order submission
    comes with no [FileSuccess] before it in the same update, the
    promise is fulfilled with the transaction hash and an undefined
    [cid]; a [FileSuccess] later in that update or in an earlier
    update does not count. *)
Theorem placeStorageOrderRaw_undefined_cid :
  forall (codec : Codec) (n : Plain.Node) (extrinsic : Payload)
         (tx : Extrinsic) (pre more : list SubmittableResult)
         (r : SubmittableResult) (evs1 evs2 : list EventRecord)
         (es : EventRecord),
    Plain.api_isReadyOrError n = Fulfilled () ->
    api_tx extrinsic = inr tx ->
    method (call tx) = "placeStorageOrder" ->
    Plain.chain n tx = Subscribed (pre ++ r :: more) ->
    Forall (fun u => hasSuccess u = false) pre ->
    isInBlock r = true ->
    events r = evs1 ++ es :: evs2 ->
    ev_method es = "ExtrinsicSuccess" ->
    Forall (fun e => ev_method e <> "ExtrinsicSuccess") evs1 ->
    Forall (fun e => ev_method e <> "FileSuccess") evs1 ->
    fst (Plain.placeStorageOrderRaw extrinsic n)
    = Fulfilled {| hash := JStr (txHash r); cid := JUndefined |}.
Proof.
  intros codec n extrinsic tx pre more r evs1 evs2 es
    Hready Htx Hm Hch Hpre Hin Hevs Hes Hno1 Hno2.
  rewrite (placeStorageOrderRaw_unfold n extrinsic tx Hready Htx), Hm.
  simpl. rewrite Hch. simpl.
  rewrite fold_left_app, (updates_without_success pre Pending Hpre eq_refl).
  simpl. unfold onPlaceStorageOrder at 2. rewrite Hin, Hevs.
  rewrite fold_left_app, scan_quiet by done.
  simpl. unfold scanEvent at 2; simpl. rewrite Hes. simpl.
  rewrite scan_settled by done.
  apply updates_settled; [apply onPlaceStorageOrder_settled | done].
Qed.

Lemma placeStorageOrderRaw_undefined_cid_witness :
  let early := {| status := InBlock "0xA";
                  events := [eventOf "FileSuccess" [JStr "bafy123"]];
                  txHash := "0x7A" |} in
  let r := {| status := InBlock "0xB";
              events := [eventOf "ExtrinsicSuccess" [];
                         eventOf "FileSuccess" [JStr "bafy123"]];
              txHash := "0x7A" |} in
  fst (Plain.placeStorageOrderRaw (H := plainCodec)
         (market_placeStorageOrder "bafy123" 0 0 "")
         (readyNode (Subscribed ([early] ++ r :: []))))
  = Fulfilled {| hash := JStr "0x7A"; cid := JUndefined |}.
Proof.
  intros early r.
  refine (placeStorageOrderRaw_undefined_cid plainCodec
            (readyNode (Subscribed ([early] ++ r :: [])))
            (market_placeStorageOrder "bafy123" 0 0 "")
            (market_placeStorageOrder "bafy123" 0 0 "")
            [early] [] r [] [eventOf "FileSuccess" [JStr "bafy123"]]
            (eventOf "ExtrinsicSuccess" []) _ _ _ _ _ _ _ _ _ _);
    try reflexivity; repeat constructor.
Defined.

Lemma onAddPrepaid_withoutEvents c u p :
  onAddPrepaid c (withoutEvents u) p = onAddPrepaid c u p.
Proof. reflexivity. Qed.

Lemma updates_withoutEvents c us :
  forall p,
    fold_left (fun q r => onAddPrepaid c r q) (map withoutEvents us) p
    = fold_left (fun q r => onAddPrepaid c r q) us p.
Proof.
  induction us as [|u us IH]; intros p; [done|].
  simpl. rewrite onAddPrepaid_withoutEvents. apply IH.
Qed.

Lemma updates_prepaid_pending c us :
  Forall (fun u => isInBlock u = false) us <->
  fold_left (fun q r => onAddPrepaid c r q) us Pending = Pending.
Proof.
  induction us as [|u us IH]; simpl.
  - split; [done | constructor].
  - unfold onAddPrepaid at 2. destruct (isInBlock u) eqn:Hu; simpl.
    + rewrite updates_settled; [|apply onAddPrepaid_settled|done].
      split; [|done]. intros Hall. inversion Hall; congruence.
    + rewrite <- IH. split.
      * intros Hall. by inversion Hall.
      * intros Hall. by constructor.
Qed.

Lemma updates_prepaid_not_rejected c us e :
  forall p, (forall e', p <> Rejected e') ->
    fold_left (fun q r => onAddPrepaid c r q) us p <> Rejected e.
Proof.
  induction us as [|u us IH]; intros p Hp; simpl; [apply Hp|].
  apply IH. intros e'. unfold onAddPrepaid.
  destruct (isInBlock u); [|apply Hp].
  destruct p; simpl; [discriminate | discriminate | apply Hp].
Qed.

(** X3.  An add-prepaid submission that was broadcast never looks at
    the events of a status update: the promise is the same with all
    events taken away, an [ExtrinsicFailed] included.  It stays
    pending exactly as long as no update reports inclusion, and it is
    never rejected once the send has succeeded. *)
Theorem addPrepaidAmountRaw_ignores_events :
  forall (codec : Codec) (n n' : Plain.Node) (extrinsic : Payload)
         (tx : Extrinsic) (c : string) (us : list SubmittableResult),
    Plain.api_isReadyOrError n = Fulfilled () ->
    Plain.api_isReadyOrError n' = Fulfilled () ->
    api_tx extrinsic = inr tx ->
    method (call tx) = "addPrepaid" ->
    field "cid" (args (call tx)) = JStr c ->
    Plain.chain n tx = Subscribed us ->
    Plain.chain n' tx = Subscribed (map withoutEvents us) ->
    let p := fst (Plain.addPrepaidAmountRaw extrinsic n) in
    p = fst (Plain.addPrepaidAmountRaw extrinsic n') /\
    (p = Pending <-> Forall (fun u => isInBlock u = false) us) /\
    (forall e, p <> Rejected e).
Proof.
  intros codec n n' extrinsic tx c us Hready Hready' Htx Hm Hcid Hch Hch' p.
  subst p.
  rewrite (addPrepaidAmountRaw_unfold n extrinsic tx Hready Htx).
  rewrite (addPrepaidAmountRaw_unfold n' extrinsic tx Hready' Htx).
  simpl. rewrite Hcid, Hm. simpl. rewrite Hch, Hch'. simpl.
  split; [by rewrite updates_withoutEvents|]. split.
  - symmetry. apply updates_prepaid_pending.
  - intros e. by apply updates_prepaid_not_rejected.
Qed.

(** An inclusion whose only event is [ExtrinsicFailed] resolves the
    add-prepaid promise all the same. *)
Lemma addPrepaidAmountRaw_ignores_events_witness :
  let failed := {| status := InBlock "0xABC";
                   events := [eventOf "ExtrinsicFailed" []];
                   txHash := "0x7A" |} in
  fst (Plain.addPrepaidAmountRaw (H := plainCodec)
         (market_addPrepaid "bafy123" 10) (readyNode (Subscribed [failed])))
  = fst (Plain.addPrepaidAmountRaw (H := plainCodec)
           (market_addPrepaid "bafy123" 10)
           (readyNode (Subscribed (map withoutEvents [failed])))).
Proof.
  intros failed.
  refine (proj1 (addPrepaidAmountRaw_ignores_events plainCodec
            (readyNode (Subscribed [failed]))
            (readyNode (Subscribed (map withoutEvents [failed])))
            (market_addPrepaid "bafy123" 10) (market_addPrepaid "bafy123" 10)
            "bafy123" [failed] _ _ _ _ _ _ _)); reflexivity.
Defined.

(** ** What is sent, and what a failed send does *)

(** X4.  On a ready node a raw submission makes at most one transport
    send: exactly one, of the extrinsic as decoded, when the payload
    passes the checks of its path, and none otherwise.  If that send
    fails, the promise is rejected with the error of the transport. *)
Theorem raw_submission_sends :
  forall (codec : Codec) (n : Plain.Node) (extrinsic : Payload)
         (tx : Extrinsic),
    Plain.api_isReadyOrError n = Fulfilled () ->
    api_tx extrinsic = inr tx ->
    let placed := Plain.placeStorageOrderRaw extrinsic n in
    let prepaid := Plain.addPrepaidAmountRaw extrinsic n in
    Plain.sent (snd placed)
    = Plain.sent n
      ++ (if String.eqb (method (call tx)) "placeStorageOrder" then [tx] else []) /\
    Plain.sent (snd prepaid)
    = Plain.sent n
      ++ (if String.eqb (typeof (field "cid" (args (call tx)))) "string"
             && String.eqb (method (call tx)) "addPrepaid"
          then [tx] else []) /\
    (forall e, Plain.chain n tx = SendFails e ->
       (method (call tx) = "placeStorageOrder" -> fst placed = Rejected e) /\
       (typeof (field "cid" (args (call tx))) = "string" ->
        method (call tx) = "addPrepaid" -> fst prepaid = Rejected e)).
Proof.
  intros codec n extrinsic tx Hready Htx placed prepaid. subst placed prepaid.
  rewrite (placeStorageOrderRaw_unfold n extrinsic tx Hready Htx).
  rewrite (addPrepaidAmountRaw_unfold n extrinsic tx Hready Htx). simpl.
  split; [|split].
  - destruct (String.eqb (method (call tx)) "placeStorageOrder"); simpl;
      [done | by rewrite app_nil_r].
  - destruct (String.eqb (typeof _) "string"); simpl;
      [|by rewrite app_nil_r].
    destruct (String.eqb (method (call tx)) "addPrepaid"); simpl;
      [done | by rewrite app_nil_r].
  - intros e Hfail. split.
    + intros ->. simpl. by rewrite Hfail.
    + intros -> ->. simpl. by rewrite Hfail.
Qed.

Lemma raw_submission_sends_witness :
  let tx := signAsync "5Grw" (market_addPrepaid "bafy123" 10) in
  let n := readyNode (SendFails (MkError "1010: Invalid Transaction")) in
  let out := Plain.addPrepaidAmountRaw (H := plainCodec) tx n in
  Plain.sent (snd out) = [tx] /\
  fst out = Rejected (MkError "1010: Invalid Transaction").
Proof.
  intros tx n out.
  destruct (raw_submission_sends plainCodec n tx tx eq_refl eq_refl)
    as (_ & Hsent & Hfail).
  split; [exact Hsent|].
  exact (proj2 (Hfail (MkError "1010: Invalid Transaction") eq_refl)
           eq_refl eq_refl).
Defined.

(** X5.  When the readiness promise of the API rejects, every
    operation of the clients of index.ts and part_000 rejects with
    that same error and leaves the node as it was: nothing is built,
    sent or queried.  The same holds on the raw paths for the error
    the API throws on a payload it cannot decode. *)
Theorem failures_before_broadcast :
  forall (codec : Codec) (n : Plain.Node) (e : Error),
    (Plain.api_isReadyOrError n = Rejected e ->
     (forall entry, Plain.getPlaceStorageOrderRaw entry n = (Rejected e, n)) /\
     (forall c a, Plain.getAddPrepaidAmountRaw c a n = (Rejected e, n)) /\
     (forall ex, Plain.placeStorageOrderRaw ex n = (Rejected e, n)) /\
     (forall ex, Plain.addPrepaidAmountRaw ex n = (Rejected e, n)) /\
     (forall c, Plain.getOrderStatus c n = (Rejected e, n)) /\
     (forall krp entry,
        Plain.IndexCrust.placeStorageOrder krp entry n = (Rejected e, n)) /\
     (forall krp c a,
        Plain.IndexCrust.addPrepaidAmount krp c a n = (Rejected e, n)) /\
     (forall krp entry,
        Plain.LayeredCrust.placeStorageOrder krp entry n = (Rejected e, n)) /\
     (forall krp c a,
        Plain.LayeredCrust.addPrepaidAmount krp c a n = (Rejected e, n))) /\
    (Plain.api_isReadyOrError n = Fulfilled () ->
     forall ex, api_tx ex = inl e ->
       Plain.placeStorageOrderRaw ex n = (Rejected e, n) /\
       Plain.addPrepaidAmountRaw ex n = (Rejected e, n)).
Proof.
  intros codec n e. split.
  - intros Hready.
    repeat split; intros;
      unfold Plain.LayeredCrust.placeStorageOrder,
        Plain.LayeredCrust.addPrepaidAmount,
        Plain.IndexCrust.placeStorageOrder, Plain.IndexCrust.addPrepaidAmount,
        Plain.getPlaceStorageOrderRaw, Plain.getAddPrepaidAmountRaw,
        Plain.placeStorageOrderRaw, Plain.addPrepaidAmountRaw,
        Plain.getOrderStatus, await, Plain.isReadyOrError;
      by rewrite Hready.
  - intros Hready ex Hex.
    unfold Plain.placeStorageOrderRaw, Plain.addPrepaidAmountRaw, await,
      Plain.isReadyOrError.
    by rewrite Hready, Hex.
Qed.

Lemma failures_before_broadcast_witness :
  let down := {| Plain.api_isReadyOrError := Rejected (MkError "disconnected");
                 Plain.chain := fun _ => Subscribed [];
                 Plain.sent := [];
                 Plain.filesV2 := ∅ |} in
  Plain.placeStorageOrderRaw (H := plainCodec)
    (market_placeStorageOrder "bafy123" 0 0 "") down
  = (Rejected (MkError "disconnected"), down).
Proof.
  intros down.
  exact (proj1 (proj2 (proj2 (proj1
           (failures_before_broadcast plainCodec down (MkError "disconnected"))
           eq_refl))) (market_placeStorageOrder "bafy123" 0 0 "")).
Defined.

(** ** The builders and what accepts their payloads *)

(** X6.  With a codec that decodes what it encodes, the place-order
    builder of part_000 on a ready node, given an entry whose size (0
    when omitted) is within the range of a [u64] and whose tips (0
    when omitted) are within the range of a [u128], returns an
    unsigned payload of the market pallet whose arguments are, in
    order, the entry's identifier, that size, those tips and the memo;
    the node is left as it was.  The add-prepaid builder, given an
    amount that is a non-negative safe integer, returns an unsigned
    [addPrepaid] payload carrying the identifier and the amount.
    Nothing is said of numbers outside these ranges, which the
    library refuses. *)
Theorem builders_arguments :
  forall (codec : Codec) (n : Plain.Node),
    RoundTrip codec ->
    Plain.api_isReadyOrError n = Fulfilled () ->
    (forall entry,
        validSize (default 0 (Entry.size entry)) = true ->
        validTips (default 0 (Entry.tips entry)) = true ->
        exists ex tx memo,
          Plain.getPlaceStorageOrderRaw entry n = (Fulfilled ex, n) /\
          api_tx ex = inr tx /\
          signature tx = None /\
          section (call tx) = "market" /\
          (args (call tx)).*2
          = [JStr (Entry.cid entry);
             JNum (default 0 (Entry.size entry));
             JNum (default 0 (Entry.tips entry));
             JStr memo]) /\
    (forall fileCid amount,
        validAmount amount = true ->
        exists ex tx,
          Plain.getAddPrepaidAmountRaw fileCid amount n = (Fulfilled ex, n) /\
          api_tx ex = inr tx /\
          signature tx = None /\
          section (call tx) = "market" /\
          method (call tx) = "addPrepaid" /\
          (args (call tx)).*2 = [JStr fileCid; JNum amount]).
Proof.
  intros codec n Hrt Hready. split.
  - intros entry _ _. eexists _, _, _. split.
    + unfold Plain.getPlaceStorageOrderRaw, await, Plain.isReadyOrError.
      rewrite Hready. reflexivity.
    + split; [apply Hrt|]. done.
  - intros fileCid amount _. eexists _, _. split.
    + unfold Plain.getAddPrepaidAmountRaw, await, Plain.isReadyOrError.
      rewrite Hready. reflexivity.
    + split; [apply Hrt|]. done.
Qed.

Lemma builders_arguments_witness :
  (exists ex tx memo,
     Plain.getPlaceStorageOrderRaw (H := plainCodec)
       {| Entry.cid := "bafy123"; Entry.type := "directory";
          Entry.size := Some 1024; Entry.tips := None |}
       (readyNode (Subscribed []))
     = (Fulfilled ex, readyNode (Subscribed [])) /\
     api_tx ex = inr tx /\
     signature tx = None /\
     section (call tx) = "market" /\
     (args (call tx)).*2 = [JStr "bafy123"; JNum 1024; JNum 0; JStr memo]) /\
  (exists ex tx,
     Plain.getAddPrepaidAmountRaw (H := plainCodec) "bafy123" 10
       (readyNode (Subscribed []))
     = (Fulfilled ex, readyNode (Subscribed [])) /\
     api_tx ex = inr tx /\
     signature tx = None /\
     section (call tx) = "market" /\
     method (call tx) = "addPrepaid" /\
     (args (call tx)).*2 = [JStr "bafy123"; JNum 10]).
Proof.
  destruct (builders_arguments plainCodec (readyNode (Subscribed []))
              (fun tx => eq_refl) eq_refl) as [Hplace Hprepaid].
  split.
  - exact (Hplace {| Entry.cid := "bafy123"; Entry.type := "directory";
                     Entry.size := Some 1024; Entry.tips := None |}
             eq_refl eq_refl).
  - exact (Hprepaid "bafy123" 10 eq_refl).
Defined.

(** X7.  With a codec that decodes what it encodes and a ready node,
    each raw path accepts the payload of its own builder and sends
    it, and rejects the payload of the other builder without sending
    anything, with the error that names the call it supports. *)
Theorem builders_match_raw_paths :
  forall (codec : Codec) (n : Plain.Node) (entry : Entry.t) (c : string)
         (a : Z),
    RoundTrip codec ->
    Plain.api_isReadyOrError n = Fulfilled () ->
    Plain.sent
      (snd ((await! ex <- Plain.getPlaceStorageOrderRaw entry ;;
             Plain.placeStorageOrderRaw ex) n))
    = Plain.sent n
      ++ [market_placeStorageOrder (Entry.cid entry)
            (default 0 (Entry.size entry)) (default 0 (Entry.tips entry))
            (if String.eqb (Entry.type entry) "directory" then "folder" else "")] /\
    Plain.sent
      (snd ((await! ex <- Plain.getAddPrepaidAmountRaw c a ;;
             Plain.addPrepaidAmountRaw ex) n))
    = Plain.sent n ++ [market_addPrepaid c a] /\
    (await! ex <- Plain.getPlaceStorageOrderRaw entry ;;
     Plain.addPrepaidAmountRaw ex) n
    = (Rejected (MkError "Only Support addPrepaid method"), n) /\
    (await! ex <- Plain.getAddPrepaidAmountRaw c a ;;
     Plain.placeStorageOrderRaw ex) n
    = (Rejected (MkError "Only Support placeStorageOrder method"), n).
Proof.
  intros codec n entry c a Hrt Hready.
  unfold await at 1 2 3 4.
  unfold Plain.getPlaceStorageOrderRaw, Plain.getAddPrepaidAmountRaw,
    await at 1 2 3 4, Plain.isReadyOrError at 1 2 3 4.
  rewrite Hready. simpl.
  rewrite !(placeStorageOrderRaw_unfold n _ _ Hready (Hrt _)).
  rewrite !(addPrepaidAmountRaw_unfold n _ _ Hready (Hrt _)).
  done.
Qed.

Lemma builders_match_raw_paths_witness :
  let n := readyNode (Subscribed []) in
  (await! ex <- Plain.getAddPrepaidAmountRaw (H := plainCodec) "bafy123" 10 ;;
   Plain.placeStorageOrderRaw ex) n
  = (Rejected (MkError "Only Support placeStorageOrder method"), n).
Proof.
  intros n.
  refine (proj2 (proj2 (proj2
            (builders_match_raw_paths plainCodec n
               {| Entry.cid := "bafy123"; Entry.type := "others";
                  Entry.size := None; Entry.tips := None |}
               "bafy123" 10 _ _)))).
  - intros tx. reflexivity.
  - reflexivity.
Defined.

(** X8.  With a codec that decodes what it encodes, the signing client
    of part_000, which builds a payload, decodes and signs it and
    submits it raw, does on every node exactly what the signing
    client of index.ts does in one step: the same promise and the
    same node afterwards, for placing an order as for adding a
    prepaid amount. *)
Theorem layered_client_agrees_with_index :
  forall (codec : Codec) (n : Plain.Node) (krp : string),
    RoundTrip codec ->
    (forall entry,
        Plain.LayeredCrust.placeStorageOrder krp entry n
        = Plain.IndexCrust.placeStorageOrder krp (sized entry) n) /\
    (forall fileCid amount,
        Plain.LayeredCrust.addPrepaidAmount krp fileCid amount n
        = Plain.IndexCrust.addPrepaidAmount krp fileCid amount n).
Proof.
  intros codec n krp Hrt.
  destruct (Plain.api_isReadyOrError n) as [|[]|e] eqn:Hready.
  - split; intros;
      unfold Plain.LayeredCrust.placeStorageOrder,
        Plain.LayeredCrust.addPrepaidAmount,
        Plain.IndexCrust.placeStorageOrder, Plain.IndexCrust.addPrepaidAmount,
        Plain.getPlaceStorageOrderRaw, Plain.getAddPrepaidAmountRaw,
        await, Plain.isReadyOrError; by rewrite Hready.
  - split; intros.
    + rewrite layered_placeStorageOrder_unfold by done.
      by rewrite index_placeStorageOrder_unfold.
    + rewrite layered_addPrepaidAmount_unfold by done.
      by rewrite index_addPrepaidAmount_unfold.
  - split; intros;
      unfold Plain.LayeredCrust.placeStorageOrder,
        Plain.LayeredCrust.addPrepaidAmount,
        Plain.IndexCrust.placeStorageOrder, Plain.IndexCrust.addPrepaidAmount,
        Plain.getPlaceStorageOrderRaw, Plain.getAddPrepaidAmountRaw,
        await, Plain.isReadyOrError; by rewrite Hready.
Qed.

Lemma layered_client_agrees_with_index_witness :
  let entry := {| Entry.cid := "bafy123"; Entry.type := "directory";
                  Entry.size := Some 1024; Entry.tips := None |} in
  let r := {| status := InBlock "0xB10C";
              events := [eventOf "FileSuccess" [JStr "bafy123"];
                         eventOf "ExtrinsicSuccess" []];
              txHash := "0x7A" |} in
  Plain.LayeredCrust.placeStorageOrder (H := plainCodec) "5Grw" entry
    (readyNode (Subscribed [r]))
  = Plain.IndexCrust.placeStorageOrder "5Grw" (sized entry)
      (readyNode (Subscribed [r])).
Proof.
  intros entry r.
  refine (proj1 (layered_client_agrees_with_index plainCodec
                   (readyNode (Subscribed [r])) "5Grw" _) entry).
  intros tx. reflexivity.
Defined.

(** ** More on the connection manager of part_001 *)

(** Awaiting readiness changes the awaited transport only. *)
Lemma awaitReady_older h s :
  Idle.api (snd (Idle.awaitReady h s)) = Idle.api s /\
  length (Idle.apis (snd (Idle.awaitReady h s))) = length (Idle.apis s) /\
  forall h', h' <> h ->
    Idle.apis (snd (Idle.awaitReady h s)) !! h' = Idle.apis s !! h'.
Proof.
  unfold Idle.awaitReady.
  destruct (Idle.apis s !! h) as [a|]; [|done].
  destruct (Idle.api_isReadyOrError a); [|done|done].
  destruct (Idle.api_autoConnect a); [|done].
  destruct (Idle.endpointUp s); simpl;
    (split; [done|]; split; [by rewrite length_insert|];
     intros h' Hne; by rewrite list_lookup_insert_ne).
Qed.

Lemma connect_older s :
  Idle.api (snd (Idle.connect s)) = length (Idle.apis s) /\
  length (Idle.apis (snd (Idle.connect s))) = S (length (Idle.apis s)) /\
  forall h', h' <> Idle.api s -> (h' < length (Idle.apis s))%nat ->
    Idle.apis (snd (Idle.connect s)) !! h' = Idle.apis s !! h'.
Proof.
  assert (forall (up : bool) (l : Idle.Api),
            Idle.connect s
            = (if up then Fulfilled () else Rejected Idle.connectionError,
               {| Idle.endpointUp := Idle.endpointUp s; Idle.now := Idle.now s;
                  Idle.apis := alter (Idle.settleApi up) (Idle.api s)
                                 (Idle.apis s) ++ [l];
                  Idle.timers := Idle.timers s;
                  Idle.nextTimer := Idle.nextTimer s;
                  Idle.api := length (Idle.apis s); Idle.net := Idle.net s;
                  Idle.countDown := Idle.countDown s |}) ->
            Idle.api (snd (Idle.connect s)) = length (Idle.apis s) /\
            length (Idle.apis (snd (Idle.connect s)))
            = S (length (Idle.apis s)) /\
            forall h', h' <> Idle.api s -> (h' < length (Idle.apis s))%nat ->
              Idle.apis (snd (Idle.connect s)) !! h' = Idle.apis s !! h')
    as Hshape.
  { intros up l Heq. rewrite Heq. simpl. split; [done|]. split.
    - rewrite length_app, length_alter. simpl. lia.
    - intros h' Hne Hlt.
      rewrite lookup_app_l by (by rewrite length_alter).
      by rewrite list_lookup_alter_ne. }
  destruct (decide (Idle.endpointUp s = true)) as [Hup|Hup].
  - apply (Hshape true _ (connect_up s Hup)).
  - apply not_true_is_false in Hup.
    apply (Hshape false _ (connect_down_state s Hup)).
Qed.

Lemma disconnect_older s :
  Idle.api (snd (Idle.disconnect s)) = Idle.api s /\
  length (Idle.apis (snd (Idle.disconnect s))) = length (Idle.apis s) /\
  forall h', h' <> Idle.api s ->
    Idle.apis (snd (Idle.disconnect s)) !! h' = Idle.apis s !! h'.
Proof.
  unfold Idle.disconnect, Idle.apiDisconnect.
  destruct (Idle.apis s !! Idle.api s) as [a|]; [|done]. simpl.
  split; [done|]. split; [by rewrite length_insert|].
  intros h' Hne. by rewrite list_lookup_insert_ne.
Qed.

Lemma fired_older ids :
  forall s,
    Idle.api (foldl Idle.fire s ids) = Idle.api s /\
    length (Idle.apis (foldl Idle.fire s ids)) = length (Idle.apis s) /\
    forall h', h' <> Idle.api s ->
      Idle.apis (foldl Idle.fire s ids) !! h' = Idle.apis s !! h'.
Proof.
  induction ids as [|id ids IH]; intros s; [done|].
  simpl. destruct (IH (Idle.fire s id)) as (Ha & Hl & Ho).
  destruct (disconnect_older (Idle.clearTimeout id s)) as (Ha' & Hl' & Ho').
  unfold Idle.fire in *. simpl in *.
  rewrite Ha, Hl, Ha', Hl'. split; [done|]. split; [done|].
  intros h' Hne. rewrite Ho by (by rewrite Ha'). by apply Ho'.
Qed.

(** What a readiness check does to the transports: on a connected
    manager it works on the transport held; on a manager that is not
    connected it appends one transport and holds that one. *)
Lemma isReadyOrError_older s :
  let s' := snd (Idle.isReadyOrError s) in
  length (Idle.apis s')
  = (length (Idle.apis s) + (if Idle.isConnected s then 0 else 1))%nat /\
  Idle.api s' = (if Idle.isConnected s then Idle.api s else length (Idle.apis s)) /\
  forall h', h' <> Idle.api s -> (h' < length (Idle.apis s))%nat ->
    Idle.apis s' !! h' = Idle.apis s !! h'.
Proof.
  unfold Idle.isReadyOrError, await.
  destruct (Idle.isConnected s) eqn:Hc; simpl.
  - destruct (awaitReady_older (Idle.api s) s) as (Ha & Hl & Ho).
    destruct (Idle.awaitReady (Idle.api s) s) as [[|[]|e] s1]; simpl in *;
      (split; [lia|]; split; [done|]; intros h' Hne _; by apply Ho).
  - destruct (connect_older s) as (Ha & Hl & Ho).
    destruct (Idle.connect s) as [[|[]|e] s1]; simpl in *;
      try (split; [lia|]; split; [done|]; intros h' Hne Hlt; by apply Ho).
    destruct (awaitReady_older (Idle.api s1) s1) as (Ha2 & Hl2 & Ho2).
    destruct (Idle.awaitReady (Idle.api s1) s1) as [[|[]|e] s2]; simpl in *;
      (split; [lia|]; split; [congruence|]; intros h' Hne Hlt;
       rewrite Ho2 by lia; by apply Ho).
Qed.

(** A check on a manager that is not connected, with the endpoint
    down. *)
Lemma isReadyOrError_down s :
  Idle.isConnected s = false ->
  Idle.endpointUp s = false ->
  fst (Idle.isReadyOrError s) = Rejected Idle.connectionError /\
  Idle.isConnected (snd (Idle.isReadyOrError s)) = false /\
  Idle.timers (snd (Idle.isReadyOrError s)) = Idle.timers s /\
  Idle.countDown (snd (Idle.isReadyOrError s)) = Idle.countDown s.
Proof.
  intros Hc Hup. unfold Idle.isReadyOrError, await. rewrite Hc. simpl.
  rewrite connect_down_state by done. simpl.
  split; [done|]. split; [|done].
  unfold Idle.isConnected. simpl. by rewrite lookup_new_api_alter.
Qed.

(** X9.  A readiness check constructs a transport exactly when the
    manager is not connected, whether the check then succeeds or not.
    In particular a check that fails because the endpoint is down
    still leaves a new transport behind; it rejects with the
    connection error and leaves the pending countdown as it was. *)
Theorem isReadyOrError_constructs_when_disconnected :
  forall s : Idle.State,
    let out := Idle.isReadyOrError s in
    length (Idle.apis (snd out))
    = (length (Idle.apis s) + (if Idle.isConnected s then 0 else 1))%nat /\
    (Idle.isConnected s = false -> Idle.endpointUp s = false ->
     fst out = Rejected Idle.connectionError /\
     Idle.isConnected (snd out) = false /\
     Idle.timers (snd out) = Idle.timers s /\
     Idle.countDown (snd out) = Idle.countDown s).
Proof.
  intros s out. subst out. split; [apply isReadyOrError_older|].
  apply isReadyOrError_down.
Qed.

(** ** Invariants of the manager over its runs *)

Lemma step_one_countdown s a : OneCountdown s -> OneCountdown (step s a).
Proof.
  intros Hone. destruct a; simpl.
  - by apply isReadyOrError_one_countdown.
  - unfold OneCountdown. destruct (connect_frame s) as (-> & -> & _). done.
  - unfold OneCountdown, Idle.disconnect, Idle.apiDisconnect.
    by destruct (Idle.apis s !! Idle.api s).
  - by apply countdown_one_countdown.
  - done.
Qed.

(** X10.  However the manager of the idle-timeout variant is used from
    its construction on (readiness checks, successful or not,
    [connect], [disconnect], time passing, the endpoint going up and
    down), at most one countdown is pending, and it is the one the
    manager remembers, so that [clearTimeout] always cancels all that
    is pending. *)
Theorem one_countdown_invariant :
  forall (net : option Net) (up : bool) (t : Z) (acts : list Action),
    let s := run acts (Idle.constructor net up t) in
    OneCountdown s /\
    (size (Idle.timers s) <= 1)%nat /\
    Idle.timers (Idle.clearTimeout (Idle.countDown s) s) = ∅.
Proof.
  intros net up t acts s.
  assert (OneCountdown s) as Hone.
  { subst s. unfold run.
    generalize (constructor_one_countdown net up t).
    generalize (Idle.constructor net up t).
    induction acts as [|a acts IH]; intros s0 H0; [done|].
    simpl. apply IH. by apply step_one_countdown. }
  split; [done|]. unfold OneCountdown in Hone. split.
  - rewrite <- size_dom.
    etrans; [apply subseteq_size, Hone|]. by rewrite size_singleton.
  - simpl. apply map_empty. intros id. apply not_elem_of_dom.
    rewrite dom_delete_L. intros [Hin Hnot]%elem_of_difference.
    by apply Hnot, Hone.
Qed.

Lemma step_older s a :
  (Idle.api s < length (Idle.apis s))%nat ->
  (Idle.api s <= Idle.api (step s a))%nat /\
  (Idle.api (step s a) < length (Idle.apis (step s a)))%nat /\
  forall h, (h < Idle.api s)%nat ->
    Idle.apis (step s a) !! h = Idle.apis s !! h.
Proof.
  intros Hwf. destruct a; simpl.
  - destruct (isReadyOrError_older s) as (Hl & Ha & Ho). simpl in *.
    rewrite Ha, Hl. destruct (Idle.isConnected s).
    + split; [lia|]. split; [lia|]. intros h Hh. apply Ho; lia.
    + split; [lia|]. split; [lia|]. intros h Hh. apply Ho; lia.
  - destruct (connect_older s) as (Ha & Hl & Ho). rewrite Ha, Hl.
    split; [lia|]. split; [lia|]. intros h Hh. apply Ho; lia.
  - destruct (disconnect_older s) as (Ha & Hl & Ho). rewrite Ha, Hl.
    split; [lia|]. split; [lia|]. intros h Hh. apply Ho. lia.
  - unfold Idle.countdown.
    match goal with
    | |- context [foldl Idle.fire ?s0 ?ids] =>
        destruct (fired_older ids s0) as (Ha & Hl & Ho)
    end.
    simpl in *. rewrite Ha, Hl.
    split; [lia|]. split; [lia|]. intros h Hh. apply Ho. lia.
  - split; [lia|]. split; [lia|]. done.
Qed.

(** X11.  The manager only ever works on the transport it holds or on
    one it has just constructed: once [connect] has replaced a
    transport, no later operation of the manager, and no countdown,
    disconnects or otherwise changes it. *)
Theorem replaced_transports_untouched :
  forall (acts : list Action) (s : Idle.State) (h : nat),
    (Idle.api s < length (Idle.apis s))%nat ->
    (h < Idle.api s)%nat ->
    Idle.apis (run acts s) !! h = Idle.apis s !! h.
Proof.
  unfold run. induction acts as [|a acts IH]; intros s h Hwf Hh; [done|].
  simpl. destruct (step_older s a Hwf) as (Hle & Hwf' & Ho).
  rewrite IH by (done || lia). by apply Ho.
Qed.

(** The transport replaced by [connect] while connected is still
    connected after a disconnect, two minutes and a new check. *)
Lemma replaced_transports_untouched_witness :
  let s := snd (Idle.connect
                  (snd (Idle.isReadyOrError (Idle.constructor None true 0)))) in
  Idle.apis (run [CallDisconnect; Wait 120000; CallIsReadyOrError] s) !! 1%nat
  = Some {| Idle.api_isConnected := true;
            Idle.api_isReadyOrError := Fulfilled ();
            Idle.api_autoConnect := true |}.
Proof.
  intros s.
  rewrite (replaced_transports_untouched
             [CallDisconnect; Wait 120000; CallIsReadyOrError] s 1%nat).
  - reflexivity.
  - vm_compute. lia.
  - vm_compute. lia.
Defined.

Lemma isReadyOrError_constructs_when_disconnected_witness :
  let s := Idle.constructor None false 0 in
  fst (Idle.isReadyOrError s) = Rejected Idle.connectionError /\
  length (Idle.apis (snd (Idle.isReadyOrError s))) = 2%nat.
Proof.
  intros s.
  destruct (isReadyOrError_constructs_when_disconnected s) as [Hlen Hfail].
  split; [exact (proj1 (Hfail eq_refl eq_refl)) | exact Hlen].
Defined.

(** X12.  On a manager with at most one pending countdown, the
    countdown set by a successful readiness check runs out exactly
    [countDownSec] seconds later: left alone, the manager is connected
    for any shorter time and not connected from then on. *)
Theorem idle_countdown_exact :
  forall (s s1 : Idle.State) (dt : Z),
    OneCountdown s ->
    Idle.isReadyOrError s = (Fulfilled (), s1) ->
    (Idle.isConnected (Idle.elapse dt s1) = true
     <-> dt < Idle.countDownSec * 1000).
Proof.
  intros s s1 dt Hone Hready.
  destruct (isReadyOrError_one_countdown s Hone) as [_ Hsingle].
  destruct (isReadyOrError_success s s1 Hready) as (Hc & Hnow & Htimer).
  rewrite Hready in Hsingle. simpl in Hsingle.
  destruct (Z.lt_ge_cases dt (Idle.countDownSec * 1000)) as [Hlt | Hge].
  - split; [done|]. intros _.
    apply (elapse_before_due dt s1 _ _ (Hsingle eq_refl)); [lia | done].
  - rewrite (elapse_due dt s1 _ _ Htimer) by lia. split; [done | lia].
Qed.

Lemma idle_countdown_exact_witness :
  let s := Idle.constructor None true 0 in
  let s1 := snd (Idle.isReadyOrError s) in
  Idle.isConnected (Idle.elapse 59999 s1) = true.
Proof.
  intros s s1.
  refine (proj2 (idle_countdown_exact s s1 59999 _ _) _).
  - apply constructor_one_countdown.
  - reflexivity.
  - unfold Idle.countDownSec. lia.
Defined.

(** After a successful check the transport held is connected and
    ready. *)
Lemma isReadyOrError_live s s1 :
  Idle.isReadyOrError s = (Fulfilled (), s1) ->
  exists auto,
    Idle.apis s1 !! Idle.api s1
    = Some {| Idle.api_isConnected := true;
              Idle.api_isReadyOrError := Fulfilled ();
              Idle.api_autoConnect := auto |}.
Proof.
  unfold Idle.isReadyOrError, await.
  destruct (Idle.isConnected s) eqn:Hc; simpl.
  - unfold Idle.awaitReady. unfold Idle.isConnected in Hc.
    destruct (Idle.apis s !! Idle.api s) as [[conn ready auto]|] eqn:Ha;
      [|done].
    simpl in *. subst conn. destruct ready as [|[]|e]; simpl.
    + destruct auto; [|done].
      destruct (Idle.endpointUp s); simpl; [|done].
      intros [= <-]. simpl. exists true.
      rewrite list_lookup_insert_eq; [done|]. by eapply lookup_lt_Some.
    + intros [= <-]. simpl. exists auto. by rewrite Ha.
    + done.
  - destruct (Idle.endpointUp s) eqn:Hup.
    + rewrite connect_up by done.
      unfold Idle.awaitReady at 1. simpl. rewrite lookup_new_api_alter. simpl.
      intros [= <-]. simpl. exists true. by rewrite lookup_new_api_alter.
    + pose proof (connect_down s Hup) as Hd.
      destruct (Idle.connect s) as [p s']. simpl in Hd. subst p. done.
Qed.

(** A check on a manager whose transport is connected and ready
    succeeds whatever the endpoint does, and only re-arms the
    countdown. *)
Lemma isReadyOrError_on_live s auto :
  Idle.apis s !! Idle.api s
  = Some {| Idle.api_isConnected := true;
            Idle.api_isReadyOrError := Fulfilled ();
            Idle.api_autoConnect := auto |} ->
  Idle.isReadyOrError s
  = (Fulfilled (), Idle.setCountDown (Idle.clearTimeout (Idle.countDown s) s)).
Proof.
  intros Hlive. unfold Idle.isReadyOrError, await, Idle.isConnected.
  rewrite Hlive. simpl. unfold Idle.awaitReady. by rewrite Hlive.
Qed.

(** X13.  In the idle-timeout variant, with a codec that decodes what
    it encodes and a first readiness check that succeeds, the split
    workflow holds together: the payload of a builder handed to the
    signing operation of the same kind comes back as the built call
    signed with the key pair, and handed to the signing operation of
    the other kind it is refused with "Method error".  Either way the
    manager is connected afterwards. *)
Theorem split_signing_workflow :
  forall (codec : Codec) (krp : string) (entry : Entry.t) (c : string)
         (a : Z) (s s1 : Idle.State),
    RoundTrip codec ->
    Idle.isReadyOrError s = (Fulfilled (), s1) ->
    let placeSigned :=
      (await! ex <- Idle.getPlaceStorageOrderRaw entry ;;
       IdleSign.signPlaceStorageOrderEx krp ex) s in
    let placeCrossed :=
      (await! ex <- Idle.getPlaceStorageOrderRaw entry ;;
       IdleSign.signAddPrepaidAmountEx krp ex) s in
    let prepaidSigned :=
      (await! ex <- Idle.getAddPrepaidAmountRaw c a ;;
       IdleSign.signAddPrepaidAmountEx krp ex) s in
    let prepaidCrossed :=
      (await! ex <- Idle.getAddPrepaidAmountRaw c a ;;
       IdleSign.signPlaceStorageOrderEx krp ex) s in
    fst placeSigned = Fulfilled (toHex (builtPlaceStorageOrder krp entry)) /\
    fst prepaidSigned = Fulfilled (toHex (signedAddPrepaid krp c a)) /\
    fst placeCrossed = Rejected (MkError "Method error") /\
    fst prepaidCrossed = Rejected (MkError "Method error") /\
    Idle.isConnected (snd placeSigned) = true /\
    Idle.isConnected (snd prepaidSigned) = true /\
    Idle.isConnected (snd placeCrossed) = true /\
    Idle.isConnected (snd prepaidCrossed) = true.
Proof.
  intros codec krp entry c a s s1 Hrt Hready
    placeSigned placeCrossed prepaidSigned prepaidCrossed.
  destruct (isReadyOrError_live s s1 Hready) as [auto Hlive].
  pose proof (isReadyOrError_on_live s1 auto Hlive) as Hagain.
  assert (Idle.isConnected
            (Idle.setCountDown (Idle.clearTimeout (Idle.countDown s1) s1))
          = true) as Hconn.
  { destruct (isReadyOrError_success s s1 Hready) as (Hc & _). exact Hc. }
  subst placeSigned placeCrossed prepaidSigned prepaidCrossed.
  unfold Idle.getPlaceStorageOrderRaw, Idle.getAddPrepaidAmountRaw,
    IdleSign.signPlaceStorageOrderEx, IdleSign.signAddPrepaidAmountEx,
    IdleSign.getTx, await.
  rewrite Hready. simpl. rewrite Hagain. rewrite !Hrt. simpl.
  by repeat split.
Qed.

Lemma split_signing_workflow_witness :
  let entry := {| Entry.cid := "bafy123"; Entry.type := "directory";
                  Entry.size := Some 1024; Entry.tips := None |} in
  fst ((await! ex <- Idle.getPlaceStorageOrderRaw (H := plainCodec) entry ;;
        IdleSign.signAddPrepaidAmountEx "5Grw" ex)
         (Idle.constructor None true 0))
  = Rejected (MkError "Method error").
Proof.
  intros entry.
  refine (proj1 (proj2 (proj2
            (split_signing_workflow plainCodec "5Grw" entry "bafy123" 10
               (Idle.constructor None true 0)
               (snd (Idle.isReadyOrError (Idle.constructor None true 0)))
               _ _)))).
  - intros tx. reflexivity.
  - reflexivity.
Defined.

(** ** Submission through the idle-timeout variant *)

Lemma client_ready_unfold {A} (k : unit -> Async IdleClient.Client A) c s1 :
  Idle.isReadyOrError (IdleClient.conn c) = (Fulfilled (), s1) ->
  (await! u <- IdleClient.isReadyOrError ;; k u) c
  = k () {| IdleClient.conn := s1; IdleClient.chain := IdleClient.chain c;
            IdleClient.sent := IdleClient.sent c;
            IdleClient.filesV2 := IdleClient.filesV2 c |}.
Proof.
  intros Hready. unfold await, IdleClient.isReadyOrError, IdleClient.onConn.
  by rewrite Hready.
Qed.

(** X14.  In the idle-timeout variant, an operation called on a
    manager that is not connected while the endpoint is down rejects
    with the connection error of the reconnection attempt; nothing is
    sent and nothing is read from the chain. *)
Theorem idle_client_down :
  forall (codec : Codec) (c : IdleClient.Client),
    Idle.isConnected (IdleClient.conn c) = false ->
    Idle.endpointUp (IdleClient.conn c) = false ->
    (forall ex,
        let out := IdleClient.placeStorageOrderRaw ex c in
        fst out = Rejected Idle.connectionError /\
        IdleClient.sent (snd out) = IdleClient.sent c) /\
    (forall ex,
        let out := IdleClient.addPrepaidAmountRaw ex c in
        fst out = Rejected Idle.connectionError /\
        IdleClient.sent (snd out) = IdleClient.sent c) /\
    (forall krp entry,
        let out := IdleClient.placeStorageOrder krp entry c in
        fst out = Rejected Idle.connectionError /\
        IdleClient.sent (snd out) = IdleClient.sent c) /\
    (forall fileCid,
        fst (IdleClient.getOrderStatus fileCid c)
        = Rejected Idle.connectionError).
Proof.
  intros codec c Hc Hup.
  destruct (isReadyOrError_down (IdleClient.conn c) Hc Hup) as (Hrej & _).
  repeat split; intros;
    unfold IdleClient.placeStorageOrder, IdleClient.placeStorageOrderRaw,
      IdleClient.addPrepaidAmountRaw, IdleClient.getOrderStatus,
      Idle.getPlaceStorageOrderRaw, await,
      IdleClient.isReadyOrError, IdleClient.onConn;
    destruct (Idle.isReadyOrError (IdleClient.conn c)) as [p s'];
    simpl in *; by subst p.
Qed.

Lemma idle_client_down_witness :
  let c := clientOf (Idle.constructor None false 0) (Subscribed []) in
  fst (IdleClient.placeStorageOrderRaw (H := plainCodec)
         (market_placeStorageOrder "bafy123" 0 0 "") c)
  = Rejected Idle.connectionError.
Proof.
  intros c.
  refine (proj1 (proj1 (idle_client_down plainCodec c _ _)
                   (market_placeStorageOrder "bafy123" 0 0 ""))).
  - reflexivity.
  - reflexivity.
Defined.

(** X15.  In the idle-timeout variant the idle disconnection does not
    show in a later submission: after a successful check and
    [countDownSec] seconds or more without a call the manager is not
    connected, and a raw place-order submission made then, with the
    endpoint up, reconnects, sends the extrinsic once, yields the
    promise of that broadcast and leaves the manager connected. *)
Theorem idle_client_submits_after_idle :
  forall (codec : Codec) (s s1 : Idle.State) (dt : Z)
         (c : IdleClient.Client) (extrinsic : Payload) (tx : Extrinsic),
    Idle.isReadyOrError s = (Fulfilled (), s1) ->
    Idle.countDownSec * 1000 <= dt ->
    IdleClient.conn c = Idle.setEndpoint true (Idle.elapse dt s1) ->
    api_tx extrinsic = inr tx ->
    method (call tx) = "placeStorageOrder" ->
    let out := IdleClient.placeStorageOrderRaw extrinsic c in
    Idle.isConnected (IdleClient.conn c) = false /\
    fst out = deliver onPlaceStorageOrder (IdleClient.chain c tx) Pending /\
    IdleClient.sent (snd out) = IdleClient.sent c ++ [tx] /\
    Idle.isConnected (IdleClient.conn (snd out)) = true.
Proof.
  intros codec s s1 dt c extrinsic tx Hready Hdt Hconn Htx Hm out.
  destruct (isReadyOrError_success s s1 Hready) as (_ & Hnow & Htimer).
  assert (Idle.isConnected (Idle.elapse dt s1) = false) as Hdis.
  { eapply elapse_due; [exact Htimer|]. lia. }
  destruct (isReadyOrError_reconnects (Idle.setEndpoint true (Idle.elapse dt s1))
              Hdis eq_refl) as (s3 & Hre & Hlive).
  subst out. unfold IdleClient.placeStorageOrderRaw.
  rewrite (client_ready_unfold _ c s3) by (by rewrite Hconn).
  rewrite Htx, Hm. simpl.
  split; [by rewrite Hconn|]. done.
Qed.

Lemma idle_client_submits_after_idle_witness :
  let s := Idle.constructor None true 0 in
  let s1 := snd (Idle.isReadyOrError s) in
  let tx := signAsync "5Grw" (market_placeStorageOrder "bafy123" 0 0 "") in
  let c := clientOf (Idle.setEndpoint true (Idle.elapse 90000 s1))
             (Subscribed []) in
  IdleClient.sent (snd (IdleClient.placeStorageOrderRaw (H := plainCodec) tx c))
  = [tx] /\
  Idle.isConnected
    (IdleClient.conn (snd (IdleClient.placeStorageOrderRaw (H := plainCodec) tx c)))
  = true.
Proof.
  intros s s1 tx c.
  refine (proj2 (proj2 (idle_client_submits_after_idle plainCodec s s1 90000
                          c tx tx _ _ _ _ _))).
  - reflexivity.
  - unfold Idle.countDownSec. lia.
  - reflexivity.
  - reflexivity.
  - reflexivity.
Defined.

(** ** More on the registry *)

Section RegistryMore.
Variable isReadyOrError : list Registry.Event -> nat -> Promise unit.

Lemma validReady_never_rejects fuel :
  forall s e, fst (Registry.validReady isReadyOrError fuel s) <> Rejected e.
Proof.
  induction fuel as [|fuel IH]; intros s e; [done|].
  simpl. destruct (Registry.crust s) as [j|]; [|apply IH].
  destruct (isReadyOrError (Registry.trace s) j) as [|[]|e']; simpl;
    [done | done | apply IH].
Qed.

Lemma constructions_app t1 t2 :
  constructions (t1 ++ t2) = (constructions t1 + constructions t2)%nat.
Proof. unfold constructions. by rewrite List.filter_app, length_app. Qed.

Lemma rejections_app t1 t2 :
  rejections (t1 ++ t2) = (rejections t1 + rejections t2)%nat.
Proof. unfold rejections. by rewrite List.filter_app, length_app. Qed.

Lemma validReady_counts fuel :
  forall s, is_Some (Registry.crust s) ->
    exists t,
      Registry.trace (snd (Registry.validReady isReadyOrError fuel s))
      = Registry.trace s ++ t /\
      constructions t = rejections t /\
      Registry.made (snd (Registry.validReady isReadyOrError fuel s))
      = (Registry.made s + constructions t)%nat.
Proof.
  induction fuel as [|fuel IH]; intros s [j Hj].
  - exists []. simpl. by rewrite app_nil_r, Nat.add_0_r.
  - simpl. rewrite Hj.
    destruct (isReadyOrError (Registry.trace s) j) as [|[]|e] eqn:Ho; simpl.
    + exists [Registry.Checked j Pending]. by rewrite Nat.add_0_r.
    + exists [Registry.Checked j (Fulfilled ())]. by rewrite Nat.add_0_r.
    + destruct (IH (Registry.assignNew
                      {| Registry.crust := Some j;
                         Registry.made := Registry.made s;
                         Registry.trace := Registry.trace s
                           ++ [Registry.Checked j (Rejected e)] |}))
        as (t & Ht & Hcount & Hmade); [by eexists|].
      exists (Registry.Checked j (Rejected e)
                :: Registry.Constructed (Registry.made s) :: t).
      rewrite Ht, Hmade. unfold Registry.assignNew. simpl.
      split; [by rewrite <- !app_assoc|].
      change (Registry.Checked j (Rejected e)
                :: Registry.Constructed (Registry.made s) :: t)
        with ([Registry.Checked j (Rejected e);
               Registry.Constructed (Registry.made s)] ++ t).
      rewrite constructions_app, rejections_app. simpl.
      split; [by rewrite Hcount | lia].
Qed.

(** X16.  An access to the registry never rejects: a failing readiness
    check is caught and answered by a new instance.  Every rejected
    check of an access is followed by exactly one construction, and
    the only other construction is that of the first access, so that
    the instances allocated grow by the number of rejected checks. *)
Theorem registry_access_accounting :
  forall (fuel : nat) (s : Registry.State),
    let out := Registry.useCrust isReadyOrError fuel s in
    (forall e, fst out <> Rejected e) /\
    exists t,
      Registry.trace (snd out) = Registry.trace s ++ t /\
      constructions t
      = (rejections t + match Registry.crust s with Some _ => 0 | None => 1 end)%nat /\
      Registry.made (snd out) = (Registry.made s + constructions t)%nat.
Proof.
  intros fuel s out. subst out. unfold Registry.useCrust.
  split; [intros e; apply validReady_never_rejects|].
  destruct (Registry.crust s) as [j|] eqn:Hj.
  - destruct (validReady_counts fuel s) as (t & Ht & Hc & Hm); [by eexists|].
    exists t. rewrite Ht, Hm, Hc. split; [done|]. split; lia.
  - destruct (validReady_counts fuel (Registry.assignNew s))
      as (t & Ht & Hc & Hm); [by eexists|].
    exists (Registry.Constructed (Registry.made s) :: t).
    rewrite Ht, Hm. unfold Registry.assignNew. simpl.
    split; [by rewrite <- !app_assoc|].
    change (Registry.Constructed (Registry.made s) :: t)
      with ([Registry.Constructed (Registry.made s)] ++ t).
    rewrite constructions_app, rejections_app. simpl. split; lia.
Qed.

(** X17.  While the memoized instance is ready it is handed out again
    and again: an access returns that same instance, constructs
    nothing, and leaves it memoized. *)
Theorem registry_reuses_ready_instance :
  forall (fuel : nat) (s : Registry.State) (r : nat),
    Registry.crust s = Some r ->
    isReadyOrError (Registry.trace s) r = Fulfilled () ->
    let out := Registry.useCrust isReadyOrError (S fuel) s in
    fst out = Fulfilled r /\
    Registry.crust (snd out) = Some r /\
    Registry.made (snd out) = Registry.made s /\
    Registry.trace (snd out)
    = Registry.trace s ++ [Registry.Checked r (Fulfilled ())].
Proof.
  intros fuel s r Hc Hok out. subst out.
  unfold Registry.useCrust. rewrite Hc. simpl. rewrite Hc, Hok. done.
Qed.

Lemma validReady_all_reject fuel :
  (forall t r, exists e, isReadyOrError t r = Rejected e) ->
  forall s, is_Some (Registry.crust s) ->
    fst (Registry.validReady isReadyOrError fuel s) = Pending /\
    Registry.made (snd (Registry.validReady isReadyOrError fuel s))
    = (Registry.made s + fuel)%nat.
Proof.
  intros Hall. induction fuel as [|fuel IH]; intros s [j Hj].
  - simpl. by rewrite Nat.add_0_r.
  - simpl. rewrite Hj.
    destruct (Hall (Registry.trace s) j) as [e He]. rewrite He.
    destruct (IH (Registry.assignNew
                    {| Registry.crust := Some j;
                       Registry.made := Registry.made s;
                       Registry.trace := Registry.trace s
                         ++ [Registry.Checked j (Rejected e)] |}))
      as [Hp Hm]; [by eexists|].
    rewrite Hp, Hm. unfold Registry.assignNew. simpl. split; [done | lia].
Qed.

(** X18.  The retry of the registry has no bound of its own: if every
    readiness check rejects, an access is still pending after any
    number of checks, having constructed one more instance for each
    of them. *)
Theorem registry_retries_without_bound :
  (forall t r, exists e, isReadyOrError t r = Rejected e) ->
  forall (fuel : nat) (s : Registry.State),
    let out := Registry.useCrust isReadyOrError fuel s in
    fst out = Pending /\
    Registry.made (snd out)
    = (Registry.made s + fuel
       + match Registry.crust s with Some _ => 0 | None => 1 end)%nat.
Proof.
  intros Hall fuel s out. subst out. unfold Registry.useCrust.
  destruct (Registry.crust s) as [j|] eqn:Hj.
  - destruct (validReady_all_reject fuel Hall s) as [Hp Hm]; [by eexists|].
    rewrite Hp, Hm. split; [done | lia].
  - destruct (validReady_all_reject fuel Hall (Registry.assignNew s))
      as [Hp Hm]; [by eexists|].
    rewrite Hp, Hm. unfold Registry.assignNew. simpl. split; [done | lia].
Qed.

End RegistryMore.

Lemma registry_reuses_ready_instance_witness :
  let check := fun (_ : list Registry.Event) (_ : nat) => Fulfilled () in
  let s := {| Registry.crust := Some 0%nat; Registry.made := 1%nat;
              Registry.trace := [Registry.Constructed 0%nat] |} in
  fst (Registry.useCrust check 1 s) = Fulfilled 0%nat /\
  Registry.made (snd (Registry.useCrust check 1 s)) = 1%nat.
Proof.
  intros check s.
  destruct (registry_reuses_ready_instance check 0%nat s 0%nat eq_refl eq_refl)
    as (Hr & _ & Hm & _).
  split; [exact Hr | exact Hm].
Defined.

Lemma registry_retries_without_bound_witness :
  let check := fun (_ : list Registry.Event) (_ : nat) =>
                 @Rejected unit (MkError "connection failed") in
  fst (Registry.useCrust check 100 emptyRegistry) = Pending /\
  Registry.made (snd (Registry.useCrust check 100 emptyRegistry)) = 101%nat.
Proof.
  intros check.
  refine (registry_retries_without_bound check _ 100%nat emptyRegistry).
  intros t r. by exists (MkError "connection failed").
Defined.

(** ** More on the client of part_002 *)

(** X19.  In part_002 a place-order call on a node whose API is not
    ready makes no call on the API at all.  On a ready node with no
    order stored for the identifier it goes through, and its promise
    is then fulfilled as on the unguarded paths: with the transaction
    hash and the identifier of the [FileSuccess] that decides the
    first [ExtrinsicSuccess] of the first included update. *)
Theorem guarded_placeStorageOrder_resolves :
  forall (CID : Type) (toV1 : CID -> CID) (toString : CID -> string)
         (n : Guarded.Node) (krp : string) (entry : Guarded.Entry)
         (tips : option Z),
    let out := Guarded.placeStorageOrder toV1 toString krp entry tips n in
    (forall e, Guarded.api_isReadyOrError n = Rejected e ->
               out = (Rejected e, n)) /\
    (forall pre r more c,
        Guarded.api_isReadyOrError n = Fulfilled () ->
        Guarded.filesV2 n !! toString (toV1 (Guarded.cid entry)) = None ->
        (forall tx, method (call tx) = "placeStorageOrder" ->
                    Guarded.chain n tx = Subscribed (pre ++ r :: more)) ->
        FirstIncluded pre r ->
        FileSuccessDecides c (events r) ->
        fst out = Fulfilled {| hash := JStr (txHash r); cid := JStr c |}).
Proof.
  intros CID toV1 toString n krp entry tips out. subst out. split.
  - intros e Hready.
    unfold Guarded.placeStorageOrder, await, Guarded.apiReady.
    by rewrite Hready.
  - intros pre r more c Hready Hnone Hans Hfirst Hevs.
    unfold Guarded.placeStorageOrder, Guarded.getOrderStatus,
      await, Guarded.apiReady.
    rewrite Hready. simpl. rewrite Hnone. simpl.
    rewrite Hans by done. by apply deliver_placeStorageOrder.
Qed.

Lemma guarded_placeStorageOrder_resolves_witness :
  let n := {| Guarded.api_isReadyOrError := Rejected (MkError "disconnected");
              Guarded.filesV2 := ∅;
              Guarded.chain := fun _ => Subscribed [];
              Guarded.ops := [] |} in
  let entry := {| Guarded.cid := "bafy123"; Guarded.size := 1024;
                  Guarded.type := "file" |} in
  Guarded.placeStorageOrder (fun c => c) (fun c => c) "krp" entry None n
  = (Rejected (MkError "disconnected"), n).
Proof.
  intros n entry.
  exact (proj1 (guarded_placeStorageOrder_resolves string (fun c => c)
                  (fun c => c) n "krp" entry None)
           (MkError "disconnected") eq_refl).
Defined.

(** X20.  [addPrepaidAmount] of part_002 is not guarded by the order
    status: on a ready node it builds the call and signs and sends it
    without any query, also for an identifier that has no order, and
    its promise is fulfilled at the first included update with the
    block hash of that update and the identifier passed in. *)
Theorem guarded_addPrepaidAmount_unguarded :
  forall (n : Guarded.Node) (krp fileCid : string) (amount : Z),
    Guarded.api_isReadyOrError n = Fulfilled () ->
    let tx := market_addPrepaid fileCid amount in
    let out := GuardedPrepaid.addPrepaidAmount krp fileCid amount n in
    Guarded.ops (snd out)
    = Guarded.ops n ++ [Guarded.Build tx; Guarded.SignAndSend krp tx] /\
    (forall pre r more blockHash,
        Guarded.chain n (signAsync krp tx) = Subscribed (pre ++ r :: more) ->
        Forall (fun u => isInBlock u = false) pre ->
        status r = InBlock blockHash ->
        fst out = Fulfilled {| hash := JStr blockHash; cid := JStr fileCid |}).
Proof.
  intros n krp fileCid amount Hready tx out. subst out tx.
  unfold GuardedPrepaid.addPrepaidAmount, await, Guarded.apiReady.
  rewrite Hready. simpl. split; [by rewrite <- app_assoc|].
  intros pre r more blockHash Hch Hpre Hst. rewrite Hch.
  apply deliver_first_included.
  - apply onAddPrepaid_skip.
  - apply onAddPrepaid_settled.
  - split; [done|]. unfold isInBlock. by rewrite Hst.
  - unfold onAddPrepaid, isInBlock. by rewrite Hst.
Qed.

Lemma guarded_addPrepaidAmount_unguarded_witness :
  let r := {| status := InBlock "0xABC"; events := []; txHash := "0x7A" |} in
  let n := {| Guarded.api_isReadyOrError := Fulfilled ();
              Guarded.filesV2 := ∅;
              Guarded.chain := fun _ => Subscribed [r];
              Guarded.ops := [] |} in
  fst (GuardedPrepaid.addPrepaidAmount "krp" "bafy123" 10 n)
  = Fulfilled {| hash := JStr "0xABC"; cid := JStr "bafy123" |}.
Proof.
  intros r n.
  refine (proj2 (guarded_addPrepaidAmount_unguarded n "krp" "bafy123" 10 _)
            [] r [] "0xABC" _ _ _).
  - reflexivity.
  - reflexivity.
  - constructor.
  - reflexivity.
Defined.
